(** * share.app: the rule evaluation and task dispatch engine

    A shallow embedding of [src/core/Models.js], [src/core/RulesEngine.js],
    [src/core/SocialAdapter.js] and [src/core/DummyAdapter.js].

    Conventions of the embedding:
    - a JavaScript number is an integer [Z]: the doubles of the code are
      the integers up to [MAX_SAFE_INTEGER], and their sums and products
      are exact as long as they stay within it; a statement about the value
      of a product of a number read from a string carries that bound;
    - a JavaScript string is a [string] whose characters are code units
      below 256;
    - [undefined] and [null] are the [None] of an option; where the code
      spreads an object, which tells a property that is [undefined] from
      one that is not there, the object is a [ContentObject];
    - an object reference (an adapter instance) is a [positive]: two tasks
      hold the same adapter exactly when they hold the same reference. *)

From Stdlib Require Import ZArith Ascii String List Lia Permutation.
From stdpp Require Import base option list gmap strings pretty.

Local Open Scope Z_scope.

(** ** Errors and completions *)

Inductive JsError : Type :=
  | Error (message : string)
  | TypeError (message : string)
  | NotImplementedError (method : string)
  | SocialAdapterValidationError (errs : list string).

(** [errors.join('; ')] *)
Fixpoint join (sep : string) (l : list string) : string :=
  match l with
  | [] => ""
  | [s] => s
  | s :: rest => s +:+ sep +:+ join sep rest
  end.

(** The [message] an error object is constructed with. *)
Definition error_message (e : JsError) : string :=
  match e with
  | Error m => m
  | TypeError m => m
  | NotImplementedError method =>
      "Method '" +:+ method +:+ "' must be implemented by the adapter"
  | SocialAdapterValidationError errs =>
      "Content validation failed: " +:+ join "; " errs
  end.

(** Outcome of evaluating a call: it returns or it throws. *)
Inductive completion (A : Type) : Type :=
  | Return (a : A)
  | Throw (e : JsError).
Arguments Return {A} a.
Arguments Throw {A} e.

(** ** Strings *)

(** [WhiteSpace] and [LineTerminator] code units below 256: what [\s]
    matches and what [trim] strips. *)
Definition is_white_space (c : ascii) : bool :=
  match c with
  | "009" | "010" | "011" | "012" | "013" | " " | "160" => true
  | _ => false
  end%char.

Definition is_digit (c : ascii) : bool :=
  match c with
  | "0" | "1" | "2" | "3" | "4" | "5" | "6" | "7" | "8" | "9" => true
  | _ => false
  end%char.

Fixpoint trimStart (s : string) : string :=
  match s with
  | EmptyString => EmptyString
  | String c s' => if is_white_space c then trimStart s' else s
  end.

Definition trimEnd (s : string) : string :=
  String.rev (trimStart (String.rev s)).

Definition trim (s : string) : string := trimEnd (trimStart s).

(** [s.includes(sub)] *)
Fixpoint includes (s sub : string) : bool :=
  String.prefix sub s ||
  match s with
  | EmptyString => false
  | String _ s' => includes s' sub
  end.

(** Truthiness of a value typed [string | undefined]. *)
Definition truthy (v : option string) : bool :=
  match v with
  | Some s => negb (String.eqb s "")
  | None => false
  end.

(** The longest prefix of [s] whose characters satisfy [p], and the rest:
    how a greedy [\d+] or [\s+] consumes input when what follows it cannot
    start with a character of the same class. *)
Fixpoint span (p : ascii -> bool) (s : string) : string * string :=
  match s with
  | EmptyString => (EmptyString, EmptyString)
  | String c s' =>
      if p c then let '(a, b) := span p s' in (String c a, b)
      else (EmptyString, s)
  end.

Definition digit_value (c : ascii) : Z := Z.of_nat (nat_of_ascii c) - 48.

Fixpoint parseInt_go (acc : Z) (s : string) : Z :=
  match s with
  | EmptyString => acc
  | String c s' => parseInt_go (10 * acc + digit_value c) s'
  end.

(** [parseInt(s, 10)] on a string of decimal digits: the number the
    digits write, which is what the code gets while it is within
    [MAX_SAFE_INTEGER]; above it the code gets the nearest double. *)
Definition parseInt (s : string) : Z := parseInt_go 0 s.

(** [Number.MAX_SAFE_INTEGER], 2^53 - 1. *)
Definition MAX_SAFE_INTEGER : Z := 9007199254740991.

(** ** Models.js *)

(** [SocialAdapterContent]: the fields the engine reads. *)
Record Content : Type := {
  text : option string;
  photo : option string;
  video : option string;
  document : option string;
  audio : option string;
  tags : option (list string);
  type : option string;
  lang : option string;
}.

Definition emptyContent : Content :=
  {| text := None; photo := None; video := None; document := None;
     audio := None; tags := None; type := None; lang := None |}.

(** An object that holds the fields of a content, property by property:
    [None] where the object has no such property, [Some v] where it has
    one, [v] being what reading it gives. An object literal has the
    properties it is written with; an instance of [SocialAdapterContent]
    has them all, those left [undefined] too. A spread copies the
    properties the object has, whatever their values. *)
Record ContentObject : Type := {
  own_text : option (option string);
  own_photo : option (option string);
  own_video : option (option string);
  own_document : option (option string);
  own_audio : option (option string);
  own_tags : option (option (list string));
  own_type : option (option string);
  own_lang : option (option string);
}.

(** The object literal written with the fields [c] has, and no other. *)
Definition object_literal (c : Content) : ContentObject :=
  {| own_text := Some <$> text c;
     own_photo := Some <$> photo c;
     own_video := Some <$> video c;
     own_document := Some <$> document c;
     own_audio := Some <$> audio c;
     own_tags := Some <$> tags c;
     own_type := Some <$> type c;
     own_lang := Some <$> lang c |}.

(** What reading the fields of an object gives. *)
Definition read_fields (o : ContentObject) : Content :=
  {| text := mjoin (own_text o);
     photo := mjoin (own_photo o);
     video := mjoin (own_video o);
     document := mjoin (own_document o);
     audio := mjoin (own_audio o);
     tags := mjoin (own_tags o);
     type := mjoin (own_type o);
     lang := mjoin (own_lang o) |}.

Record Validation : Type := { valid : bool; errors : list string }.

(** [static validate(raw = {})] *)
Definition validate (raw : Content) : Validation :=
  let errors0 : list string := [] in
  let hasText :=
    match text raw with
    | Some t => truthy (Some t) && (0 <? Z.of_nat (String.length (trim t)))%Z
    | None => false
    end in
  let hasMedia :=
    truthy (photo raw) || truthy (video raw) || truthy (document raw)
    || truthy (audio raw) in
  let errors1 :=
    if negb hasText && negb hasMedia
    then errors0 ++
         ["content must have at least text or one media field (photo, video, document, audio)"]
    else errors0 in
  {| valid := Nat.eqb (List.length errors1) 0; errors := errors1 |}.

(** ** RulesEngine.js: the delay grammar *)

(** The argument of [parseDelay]: [string | number], or absent. *)
Inductive Delay : Type :=
  | DelayAbsent
  | DelayNumber (n : Z)
  | DelayString (s : string).

(** [str.match(/^(\d+)(m|h|d)$/)]: the digits and the unit. *)
Definition match_duration (str : string) : option (string * ascii) :=
  let '(digits, rest) := span is_digit str in
  match digits, rest with
  | String _ _, String unit EmptyString =>
      match unit with
      | "m" | "h" | "d" => Some (digits, unit)
      | _ => None
      end%char
  | _, _ => None
  end.

(** The tail [(\d{2}):(\d{2})$] shared by the two forms with a time. *)
Definition match_hh_mm (s : string) : option (string * string) :=
  match s with
  | String h1 (String h2 (String ":" (String m1 (String m2 EmptyString)))) =>
      if is_digit h1 && is_digit h2 && is_digit m1 && is_digit m2
      then Some (String h1 (String h2 EmptyString),
                 String m1 (String m2 EmptyString))
      else None
  | _ => None
  end.

(** [str.match(/^(\d+)d\s+(\d{2}):(\d{2})$/)] *)
Definition match_duration_time (str : string)
  : option (string * string * string) :=
  let '(digits, rest) := span is_digit str in
  match digits, rest with
  | String _ _, String "d" rest' =>
      let '(spaces, tail) := span is_white_space rest' in
      match spaces with
      | EmptyString => None
      | String _ _ =>
          match match_hh_mm tail with
          | Some (hh, mm) => Some (digits, hh, mm)
          | None => None
          end
      end
  | _, _ => None
  end.

Definition weekdays : list string :=
  ["Mon"; "Tue"; "Wed"; "Thu"; "Fri"; "Sat"; "Sun"]%string.

(** [str.match(/^(Mon|Tue|Wed|Thu|Fri|Sat|Sun)\s+(\d{2}):(\d{2})$/)] *)
Definition match_weekday (str : string)
  : option (string * string * string) :=
  match str with
  | String a (String b (String c rest)) =>
      let day := String a (String b (String c EmptyString)) in
      if bool_decide (day ∈ weekdays) then
        let '(spaces, tail) := span is_white_space rest in
        match spaces with
        | EmptyString => None
        | String _ _ =>
            match match_hh_mm tail with
            | Some (hh, mm) => Some (day, hh, mm)
            | None => None
            end
        end
      else None
  | _ => None
  end.

(** [l.indexOf(x)] *)
Fixpoint indexOf (x : string) (l : list string) : Z :=
  match l with
  | [] => -1
  | y :: l' =>
      if String.eqb x y then 0
      else let i := indexOf x l' in if i <? 0 then -1 else i + 1
  end.

Definition dayNames : list string :=
  ["Sun"; "Mon"; "Tue"; "Wed"; "Thu"; "Fri"; "Sat"]%string.

(** *** Dates

    A [Date] is its local time in milliseconds since the local midnight of
    1970-01-01, a Thursday; the zone has a fixed offset (no daylight-saving
    transition falls between [now] and the target). *)

Definition MS_PER_DAY : Z := 24 * 60 * 60 * 1000.

(** [date.getDay()]: 0 is Sunday. *)
Definition getDay (date : Z) : Z := (date / MS_PER_DAY + 4) mod 7.

(** [date.setDate(date.getDate() + n)] *)
Definition addDate (date n : Z) : Z := date + n * MS_PER_DAY.

(** [date.setHours(h, m, 0, 0)] *)
Definition setHours (date h m : Z) : Z :=
  date / MS_PER_DAY * MS_PER_DAY + h * (60 * 60 * 1000) + m * (60 * 1000).

(** [parseDelay(delay)], with the [new Date()] it reads given as [now]. *)
Definition parseDelay (now : Z) (delay : Delay) : completion Z :=
  match delay with
  | DelayAbsent => Return 0
  | DelayNumber n => if n =? 0 then Return 0 else Return n
  | DelayString s =>
      if String.eqb s "0" then Return 0 else
      let str := trim s in
      match match_duration str with
      | Some (digits, unit) =>
          let value := parseInt digits in
          (* the pattern leaves no unit but m, h and d *)
          match unit with
          | "m" => Return (value * 60 * 1000)
          | "h" => Return (value * 60 * 60 * 1000)
          | _ => Return (value * 24 * 60 * 60 * 1000)
          end%char
      | None =>
      match match_duration_time str with
      | Some (d, hh, mm) =>
          let days := parseInt d in
          let hours := parseInt hh in
          let minutes := parseInt mm in
          Return ((days * 24 * 60 * 60 + hours * 60 * 60 + minutes * 60) * 1000)
      | None =>
      match match_weekday str with
      | Some (day, hh, mm) =>
          let targetDay := indexOf day dayNames in
          let targetH := parseInt hh in
          let targetM := parseInt mm in
          let currentDay := getDay now in
          let daysAhead := targetDay - currentDay in
          let daysAhead := if daysAhead <=? 0 then daysAhead + 7 else daysAhead in
          let target := setHours (addDate now daysAhead) targetH targetM in
          Return (target - now)
      | None =>
          Throw (Error ("Invalid delay format: '" +:+ s +:+ "'"))
      end end end
  end.

(** ** RulesEngine.js: the condition matcher *)

(** [conditions.tags]: an array, or a single tag. *)
Inductive TagsCondition : Type :=
  | TagArray (l : list string)
  | TagSingle (s : string).

(** The [if] block of a rule. *)
Record Conditions : Type := {
  if_tags : option TagsCondition;
  if_type : option string;
  if_lang : option string;
  if_hasMedia : option bool;
}.

(** [Object.keys(conditions).length === 0] *)
Definition no_keys (c : Conditions) : bool :=
  match if_tags c, if_type c, if_lang c, if_hasMedia c with
  | None, None, None, None => true
  | _, _, _, _ => false
  end.

(** [arr.includes(x)] on an array of strings. *)
Definition array_includes (arr : list string) (x : string) : bool :=
  existsb (String.eqb x) arr.

Definition matchesConditions (content : Content)
    (conditions : option Conditions) : bool :=
  match conditions with
  | None => true
  | Some conditions =>
  if no_keys conditions then true else
  let tags_fail :=
    match if_tags conditions with
    | Some (TagArray required) =>
        let contentTags := default [] (tags content) in
        negb (existsb (fun tag => array_includes contentTags tag) required)
    | Some (TagSingle t) =>
        truthy (Some t) &&
        let required := [t] in
        let contentTags := default [] (tags content) in
        negb (existsb (fun tag => array_includes contentTags tag) required)
    | None => false
    end in
  if tags_fail then false else
  let type_fail :=
    truthy (if_type conditions)
    && negb (bool_decide (type content = if_type conditions)) in
  if type_fail then false else
  let lang_fail :=
    truthy (if_lang conditions)
    && negb (bool_decide (lang content = if_lang conditions)) in
  if lang_fail then false else
  let media_fail :=
    match if_hasMedia conditions with
    | Some wanted =>
        let hasMedia :=
          truthy (photo content) || truthy (document content)
          || truthy (video content) in
        negb (Bool.eqb wanted hasMedia)
    | None => false
    end in
  if media_fail then false else true
  end.

(** ** RulesEngine.js: rule evaluation *)

(** A reference to an adapter object. *)
Abbreviation aref := positive.

(** One entry of a rule's [publish] list. *)
Record Target : Type := {
  target_adapter : string;
  target_delay : Delay;
  target_channel : option string;
}.

Record Rule : Type := {
  rule_name : string;
  rule_if : option Conditions;
  rule_publish : list Target;
}.

Record Task : Type := {
  adapter : aref;
  content : Content;
  delayMs : Z;
  channel : option string;
  ruleName : string;
}.

(** What a call leaves on the console next to its completion. *)
Definition Logged (A : Type) : Type := list string * completion A.

Definition warn_not_found (target : Target) (rule : Rule) : string :=
  "[share.app] Adapter '" +:+ target_adapter target
  +:+ "' not found, skipping rule '" +:+ rule_name rule +:+ "'".

(** The inner loop [for (const target of rule.publish)]. *)
Fixpoint evaluateTargets (now : Z) (content : Content) (rule : Rule)
    (adapters : gmap string aref) (targets : list Target)
    (tasks : list Task) : Logged (list Task) :=
  match targets with
  | [] => ([], Return tasks)
  | target :: rest =>
      match adapters !! target_adapter target with
      | None =>
          let '(log, r) := evaluateTargets now content rule adapters rest tasks in
          (warn_not_found target rule :: log, r)
      | Some adapter =>
          match parseDelay now (target_delay target) with
          | Throw e => ([], Throw e)
          | Return ms =>
              evaluateTargets now content rule adapters rest
                (tasks ++ [{| adapter := adapter;
                              content := content;
                              delayMs := ms;
                              channel := if truthy (target_channel target)
                                         then target_channel target else None;
                              ruleName := rule_name rule |}])
          end
      end
  end.

(** The outer loop [for (const rule of rules)]. *)
Fixpoint evaluateLoop (now : Z) (content : Content)
    (adapters : gmap string aref) (rules : list Rule)
    (tasks : list Task) : Logged (list Task) :=
  match rules with
  | [] => ([], Return tasks)
  | rule :: rest =>
      if negb (matchesConditions content (rule_if rule))
      then evaluateLoop now content adapters rest tasks
      else
        match evaluateTargets now content rule adapters (rule_publish rule) tasks with
        | (log, Throw e) => (log, Throw e)
        | (log, Return tasks') =>
            let '(log', r) := evaluateLoop now content adapters rest tasks' in
            (log ++ log', r)
        end
  end.

Definition evaluateRules (now : Z) (content : Content) (rules : list Rule)
    (adapters : gmap string aref) : Logged (list Task) :=
  let validation := validate content in
  if negb (valid validation)
  then ([], Throw (SocialAdapterValidationError (errors validation)))
  else evaluateLoop now content adapters rules [].

(** ** SocialAdapter.js: the adapter protocol *)

(** What a stored post holds: [{ ...content, id, publishedAt, updatedAt }]. *)
Record Post : Type := {
  post_content : Content;
  post_id : string;
  publishedAt : option Z;
  updatedAt : option Z;
}.

(** [SocialAdapterPublishResult]: [{ id, url }], and the [payload] the
    reference adapter adds. *)
Record PublishResult : Type := {
  id : string;
  url : string;
  payload : option Post;
}.

(** An entry of the list [executeTasks] resolves to:
    [{ ...result, ruleName: task.ruleName, adapter: task.adapter.id }]. *)
Record Result : Type := {
  result_id : string;
  result_url : string;
  result_payload : option Post;
  result_ruleName : string;
  result_adapter : string;
}.

Definition mkResult (result : PublishResult) (task : Task) (adapter_id : string)
    : Result :=
  {| result_id := id result;
     result_url := url result;
     result_payload := payload result;
     result_ruleName := ruleName task;
     result_adapter := adapter_id |}.

(** What happens while the engine runs, in order: the adapter calls with
    the way each one settled, the console warnings, and the rejections of
    timer callbacks, which nothing awaits. *)
Inductive Event : Type :=
  | Verify (a : aref) (outcome : completion bool)
  | Publish (a : aref) (c : Content) (outcome : completion PublishResult)
  | Warn (message : string)
  | Unhandled (e : JsError).

(** How the promise an [async] function returns ends up. *)
Inductive Settlement (A : Type) : Type :=
  | Fulfilled (a : A)
  | Rejected (e : JsError)
  | Pending.
Arguments Fulfilled {A} a.
Arguments Rejected {A} e.
Arguments Pending {A}.

Section Protocol.
(** The state outside the engine: the platforms and the stores of the
    adapters. An adapter call runs to its end before the next one starts. *)
Context {World : Type}.

(** An adapter object with its methods resolved along the prototype
    chain. [update] is [None] when no class of the chain defines it; its
    content is taken as an object, since what an update stores depends on
    the properties the object has. [syncFeedback] and [reply], which the
    engine never calls, are left out. *)
Record Adapter : Type := {
  constructor_name : string;
  adapter_id : completion string;
  capabilities : list string;
  maxLength : option Z;
  verify : World -> completion bool * World;
  publish : Content -> World -> completion PublishResult * World;
  delete : string -> World -> completion bool * World;
  update : option (string -> ContentObject -> World
                   -> completion PublishResult * World);
}.

(** [can(cap)] *)
Definition can (this : Adapter) (cap : string) : bool :=
  array_includes (capabilities this) cap.

(** The members of [class SocialAdapter], seen from an instance whose
    class is named [cname], whose [id] getter is [the_id] and whose
    [capabilities] getter returns [caps]. The class has no [update]. *)
Definition SocialAdapter_members (cname : string)
    (the_id : completion string) (caps : list string) : Adapter :=
  {| constructor_name := cname;
     adapter_id := the_id;
     capabilities := caps;
     maxLength := None;
     verify := fun w => (Throw (NotImplementedError "verify"), w);
     publish := fun _ w => (Throw (NotImplementedError "publish"), w);
     delete := fun _ w =>
       if negb (array_includes caps "delete")
       then (Throw (Error ("Adapter '" +:+ cname
                           +:+ "' does not support deleting posts.")), w)
       else (Throw (NotImplementedError "delete"), w);
     update := None |}.

(** [new SocialAdapter()] *)
Definition SocialAdapter : Adapter :=
  SocialAdapter_members "SocialAdapter"
    (Throw (NotImplementedError "get id")) [].

(** [adapter.update(postId, content)]: calling a property that is not
    there throws a [TypeError]. *)
Definition call_update (this : Adapter) (postId : string)
    (content : ContentObject) (w : World) : completion PublishResult * World :=
  match update this with
  | Some method => method postId content w
  | None => (Throw (TypeError "adapter.update is not a function"), w)
  end.

(** The error [delete] raises for a missing capability. *)
Definition is_capability_error (e : JsError) : bool :=
  match e with
  | Error m => includes m "does not support"
  | _ => false
  end.

Definition is_not_implemented (e : JsError) : bool :=
  match e with
  | NotImplementedError _ => true
  | _ => false
  end.
End Protocol.
Arguments Adapter World : clear implicits.

(** ** RulesEngine.js: the task dispatcher *)

(** [opts]: [{ verify = false }] *)
Record Opts : Type := { opt_verify : bool }.

Section Dispatcher.
Context {World : Type}.

(** The adapter object behind each reference. *)
Variable heap : aref -> Adapter World.

(** The order in which the timers of the delayed tasks fire, as positions
    in the list of delayed tasks. *)
Variable fire_order : list Task -> list nat.

(** An asynchronous computation: from a state of the world to a
    completion, the state it leaves and the events it produced. *)
Definition Async (A : Type) : Type :=
  World -> completion A * World * list Event.

Definition ret {A} (a : A) : Async A := fun w => (Return a, w, []).

Definition bind {A B} (m : Async A) (k : A -> Async B) : Async B :=
  fun w =>
    match m w with
    | (Return a, w1, tr1) =>
        let '(r, w2, tr2) := k a w1 in (r, w2, tr1 ++ tr2)
    | (Throw e, w1, tr1) => (Throw e, w1, tr1)
    end.

(** [try { body } catch (err) { handler }] *)
Definition try_catch {A} (body : Async A) (handler : JsError -> Async A)
    : Async A :=
  fun w =>
    match body w with
    | (Return a, w1, tr1) => (Return a, w1, tr1)
    | (Throw e, w1, tr1) =>
        let '(r, w2, tr2) := handler e w1 in (r, w2, tr1 ++ tr2)
    end.

Notation "'let*' x ':=' m 'in' k" := (bind m (fun x => k))
  (at level 10, x name, m at level 100, k at level 200).

(** [await adapter.verify()] *)
Definition await_verify (a : aref) : Async bool :=
  fun w => let '(r, w1) := verify (heap a) w in (r, w1, [Verify a r]).

(** [await adapter.publish(content)] *)
Definition await_publish (a : aref) (c : Content) : Async PublishResult :=
  fun w => let '(r, w1) := publish (heap a) c w in (r, w1, [Publish a c r]).

(** [adapter.id] *)
Definition get_id (a : aref) : Async string :=
  fun w => (adapter_id (heap a), w, []).

Definition console_warn (message : string) : Async unit :=
  fun w => (Return (), w, [Warn message]).

Definition warn_failed_verify (adapter_id : string) (err : JsError) : string :=
  "[share.app] Adapter '" +:+ adapter_id +:+ "' failed verify(): "
  +:+ error_message err +:+ ". Skipping.".

(** The loop of the gate: [for (const task of tasks)] over the cache
    [verified], a map keyed by the adapter object. *)
Fixpoint verifyLoop (tasks : list Task) (verified : gmap aref bool)
    : Async (gmap aref bool) :=
  match tasks with
  | [] => ret verified
  | task :: rest =>
      if bool_decide (is_Some (verified !! adapter task))
      then verifyLoop rest verified
      else
        let* verified' :=
          try_catch
            (let* _ := await_verify (adapter task) in
             ret (<[adapter task := true]> verified))
            (fun err =>
               let* i := get_id (adapter task) in
               let* _ := console_warn (warn_failed_verify i err) in
               ret (<[adapter task := false]> verified)) in
        verifyLoop rest verified'
  end.

(** [new Set([...verified.entries()].filter(([, ok]) => !ok).map(([a]) => a))] *)
Definition failedAdapters (verified : gmap aref bool) : gset aref :=
  dom (filter (fun entry : aref * bool => entry.2 = false) verified).

(** The gate: the tasks that go on to the lanes. *)
Definition verifyGate (tasks : list Task) (opts : Opts) : Async (list Task) :=
  if opt_verify opts then
    let* verified := verifyLoop tasks ∅ in
    let failed := failedAdapters verified in
    if (0 <? size failed)%nat
    then ret (filter (fun t => adapter t ∉ failed) tasks)
    else ret tasks
  else ret tasks.

(** [for (const task of immediate)] *)
Fixpoint runImmediate (immediate : list Task) (results : list Result)
    : Async (list Result) :=
  match immediate with
  | [] => ret results
  | task :: rest =>
      let* result := await_publish (adapter task) (content task) in
      let* i := get_id (adapter task) in
      runImmediate rest (results ++ [mkResult result task i])
  end.

(** [Math.min(task.delayMs, 50)]: the wait of a delayed task's timer. *)
Definition timeout (task : Task) : Z := Z.min (delayMs task) 50.

(** The body of a timer: publish, then resolve with the result. *)
Definition timerCallback (task : Task) : Async Result :=
  let* result := await_publish (adapter task) (content task) in
  let* i := get_id (adapter task) in
  ret (mkResult result task i).

(** The timers fire in [order]. A callback that returns resolves the
    promise of its task, [slots !! i]; one that throws leaves it pending
    for good. *)
Fixpoint fireTimers (delayed : list Task) (order : list nat)
    (slots : list (option Result))
    : World -> list (option Result) * World * list Event :=
  match order with
  | [] => fun w => (slots, w, [])
  | i :: rest => fun w =>
      match delayed !! i with
      | None => fireTimers delayed rest slots w
      | Some task =>
          match timerCallback task w with
          | (Return r, w1, tr1) =>
              let '(slots', w2, tr2) :=
                fireTimers delayed rest (<[i := Some r]> slots) w1 in
              (slots', w2, tr1 ++ tr2)
          | (Throw e, w1, tr1) =>
              let '(slots', w2, tr2) := fireTimers delayed rest slots w1 in
              (slots', w2, tr1 ++ Unhandled e :: tr2)
          end
      end
  end.

(** The two lanes, lines 181 to 208: immediate tasks one after the other,
    then the timers of the delayed ones and [Promise.all] over them. *)
Definition runLanes (tasks : list Task)
    : World -> Settlement (list Result) * World * list Event :=
  fun w =>
    let immediate := filter (fun t => delayMs t = 0) tasks in
    let delayed := filter (fun t => delayMs t > 0) tasks in
    match runImmediate immediate [] w with
    | (Throw e, w1, tr1) => (Rejected e, w1, tr1)
    | (Return results, w1, tr1) =>
        let '(slots, w2, tr2) :=
          fireTimers delayed (fire_order delayed)
            (replicate (length delayed) None) w1 in
        match mapM (M := option) (fun slot => slot) slots with
        | Some delayedResults =>
            (Fulfilled (results ++ delayedResults), w2, tr1 ++ tr2)
        | None => (Pending, w2, tr1 ++ tr2)
        end
    end.

Definition executeTasks (tasks : list Task) (opts : Opts)
    : World -> Settlement (list Result) * World * list Event :=
  fun w =>
    match verifyGate tasks opts w with
    | (Throw e, w1, tr1) => (Rejected e, w1, tr1)
    | (Return tasks', w1, tr1) =>
        let '(p, w2, tr2) := runLanes tasks' w1 in (p, w2, tr1 ++ tr2)
    end.
End Dispatcher.

(** The timers are set in one go, so they fire by increasing wait, and
    those with the same wait in the order they were set. *)
Fixpoint insert_by (key : nat -> Z) (i : nat) (l : list nat) : list nat :=
  match l with
  | [] => [i]
  | j :: l' => if key i <=? key j then i :: l else j :: insert_by key i l'
  end.

Definition expiry_order (delayed : list Task) : list nat :=
  foldr (insert_by (fun i => from_option timeout 0 (delayed !! i))) []
        (seq 0 (length delayed)).

(** ** DummyAdapter.js: the reference adapter *)

(** The world of the reference adapter: the clock, as the values its
    successive readings return, and the [posts] map of each instance. *)
Record DummyWorld : Type := {
  clock : nat -> Z;
  reads : nat;
  posts : gmap aref (gmap string Post);
}.

(** [Date.now()], and [new Date()] *)
Definition Date_now (w : DummyWorld) : Z * DummyWorld :=
  (clock w (reads w),
   {| clock := clock w; reads := S (reads w); posts := posts w |}).

(** [this.posts] *)
Definition posts_of (this : aref) (w : DummyWorld) : gmap string Post :=
  default ∅ (posts w !! this).

Definition set_posts (this : aref) (m : gmap string Post) (w : DummyWorld)
    : DummyWorld :=
  {| clock := clock w; reads := reads w; posts := <[this := m]> (posts w) |}.

(** [{ ...existing, ...content }], read field by field: a property that
    [content] has takes the place of the one of [existing], whatever its
    value, [undefined] included; the others are those of [existing]. *)
Definition spread (existing : Content) (content : ContentObject) : Content :=
  {| text := default (text existing) (own_text content);
     photo := default (photo existing) (own_photo content);
     video := default (video existing) (own_video content);
     document := default (document existing) (own_document content);
     audio := default (audio existing) (own_audio content);
     tags := default (tags existing) (own_tags content);
     type := default (type existing) (own_type content);
     lang := default (lang existing) (own_lang content) |}.

Definition Dummy_publish (this : aref) (content : Content) (w : DummyWorld)
    : completion PublishResult * DummyWorld :=
  if truthy (text content)
     && (280 <? Z.of_nat (String.length (default EmptyString (text content))))
  then (Throw (Error "Content exceeds max length of 280"), w)
  else
    let '(t, w1) := Date_now w in
    let postId := "dummy-post-" +:+ pretty t in
    let '(d, w2) := Date_now w1 in
    let payload := {| post_content := content; post_id := postId;
                      publishedAt := Some d; updatedAt := None |} in
    (Return {| id := postId;
               url := "https://dummy.nan0web.app/posts/" +:+ postId;
               payload := Some payload |},
     set_posts this (<[postId := payload]> (posts_of this w2)) w2).

Definition Dummy_delete (this : aref) (postId : string) (w : DummyWorld)
    : completion bool * DummyWorld :=
  match posts_of this w !! postId with
  | None => (Throw (Error "Post not found on Dummy platform"), w)
  | Some _ =>
      (Return true, set_posts this (base.delete postId (posts_of this w)) w)
  end.

Definition Dummy_update (this : aref) (postId : string)
    (content : ContentObject) (w : DummyWorld)
    : completion PublishResult * DummyWorld :=
  match posts_of this w !! postId with
  | None => (Throw (Error "Post not found on Dummy platform"), w)
  | Some existing =>
      let '(d, w1) := Date_now w in
      let updated := {| post_content := spread (post_content existing) content;
                        post_id := postId;
                        publishedAt := publishedAt existing;
                        updatedAt := Some d |} in
      (Return {| id := postId;
                 url := "https://dummy.nan0web.app/posts/" +:+ postId;
                 payload := None |},
       set_posts this (<[postId := updated]> (posts_of this w1)) w1)
  end.

(** [new DummyAdapter({ rejectVerify })], the object at reference [this]. *)
Definition DummyAdapter (this : aref) (rejectVerify : bool)
    : Adapter DummyWorld :=
  {| constructor_name := "DummyAdapter";
     adapter_id := Return "dummy";
     capabilities := ["media"; "delete"; "reply"; "edit"; "photo"; "document"]%string;
     maxLength := Some 280;
     verify := fun w =>
       if rejectVerify
       then (Throw (Error "Invalid config: fake rejection triggered."), w)
       else (Return true, w);
     publish := Dummy_publish this;
     delete := Dummy_delete this;
     update := Some (Dummy_update this) |}.

(** ** A small deployment, used to run the engine on concrete inputs *)

(** Reference 1 is a working reference adapter, reference 2 one whose
    configuration is rejected, and any other reference holds an instance of
    the base class. *)
Definition demo_heap (a : aref) : Adapter DummyWorld :=
  match a with
  | 1%positive => DummyAdapter 1 false
  | 2%positive => DummyAdapter 2 true
  | _ => SocialAdapter
  end.

Definition demo_world : DummyWorld :=
  {| clock := fun n => 1700000000000 + Z.of_nat n; reads := 0; posts := ∅ |}.

Definition demo_registry : gmap string aref :=
  <["dummy" := 1%positive]> (<["broken" := 2%positive]> ∅).

Definition hello : Content :=
  {| text := Some "hi"; photo := None; video := None; document := None;
     audio := None; tags := Some ["public"%string]; type := None; lang := None |}.

Definition demo_task (a : aref) (ms : Z) (rule : string) : Task :=
  {| adapter := a; content := hello; delayMs := ms; channel := None;
     ruleName := rule |}.

(** A batch over the working adapter and the rejected one: an immediate
    task for each, two delayed tasks whose timers fire in the other order,
    and a task with a negative delay. *)
Definition demo_batch : list Task :=
  [demo_task 1 0 "now"; demo_task 2 0 "broken"; demo_task 1 70 "late";
   demo_task 1 20 "soon"; demo_task 1 (-5) "never"].

(** Monday 1970-01-05, 09:00 local time. *)
Definition monday_9am : Z := 4 * MS_PER_DAY + 9 * 60 * 60 * 1000.

(** A content whose only media is an audio file. *)
Definition voice_note : Content :=
  {| text := None; photo := None; video := None; document := None;
     audio := Some "a.mp3"; tags := None; type := None; lang := None |}.

Definition wants_media : Conditions :=
  {| if_tags := None; if_type := None; if_lang := None;
     if_hasMedia := Some true |}.

(** The rule set of the engine's own test: the last rule names an adapter
    nobody registered, with a delay nobody can parse. *)
Definition demo_rules : list Rule :=
  [ {| rule_name := "Public posts to Dummy";
       rule_if := Some {| if_tags := Some (TagArray ["public"%string]);
                          if_type := None; if_lang := None;
                          if_hasMedia := None |};
       rule_publish := [ {| target_adapter := "dummy";
                            target_delay := DelayNumber 0;
                            target_channel := None |} ] |};
    {| rule_name := "Unknown adapter";
       rule_if := None;
       rule_publish := [ {| target_adapter := "nonexistent";
                            target_delay := DelayString "tomorrow";
                            target_channel := None |} ] |} ].

(** ** The vocabulary of the specification *)

(** [every p s]: all characters of [s] satisfy [p]. *)
Fixpoint every (p : ascii -> bool) (s : string) : bool :=
  match s with
  | EmptyString => true
  | String c s' => p c && every p s'
  end.

(** "Non-empty trimmed text": a text that still has a character once
    trimmed. *)
Definition has_text (raw : Content) : Prop :=
  exists t, text raw = Some t /\ trim t <> EmptyString.

(** A media reference: a non-empty string in a media field. *)
Definition is_reference (v : option string) : Prop :=
  exists u, v = Some u /\ u <> EmptyString.

(** "Any media reference is present (photo, video, document, or audio)". *)
Definition has_media_reference (raw : Content) : Prop :=
  is_reference (photo raw) \/ is_reference (video raw)
  \/ is_reference (document raw) \/ is_reference (audio raw).

(** [HH:MM]: two digits, a colon, two digits. *)
Definition time_of_day (hh mm : string) : Prop :=
  String.length hh = 2%nat /\ every is_digit hh = true
  /\ String.length mm = 2%nat /\ every is_digit mm = true.

(** [<N>m], [<N>h], [<N>d] *)
Definition duration_form (str : string) : Prop :=
  exists n unit,
    n <> EmptyString /\ every is_digit n = true
    /\ unit ∈ ["m"; "h"; "d"]%char
    /\ str = n +:+ String unit EmptyString.

(** [<N>d HH:MM] *)
Definition day_time_form (str : string) : Prop :=
  exists n spaces hh mm,
    n <> EmptyString /\ every is_digit n = true
    /\ spaces <> EmptyString /\ every is_white_space spaces = true
    /\ time_of_day hh mm
    /\ str = n +:+ "d" +:+ spaces +:+ hh +:+ ":" +:+ mm.

(** [<Weekday> HH:MM] *)
Definition weekday_form (str : string) : Prop :=
  exists day spaces hh mm,
    day ∈ weekdays
    /\ spaces <> EmptyString /\ every is_white_space spaces = true
    /\ time_of_day hh mm
    /\ str = day +:+ spaces +:+ hh +:+ ":" +:+ mm.

(** The literals the delay grammar accepts. *)
Definition accepted_literal (s : string) : Prop :=
  s = "0"%string \/ duration_form (trim s) \/ day_time_form (trim s)
  \/ weekday_form (trim s).

(** A rule without the destinations whose adapter the registry lacks. *)
Definition drop_unknown (adapters : gmap string aref) (rule : Rule) : Rule :=
  {| rule_name := rule_name rule;
     rule_if := rule_if rule;
     rule_publish :=
       filter (fun target => is_Some (adapters !! target_adapter target))
              (rule_publish rule) |}.

(** [s] is empty or starts with a character outside the class [p]. *)
Definition stops (p : ascii -> bool) (s : string) : Prop :=
  match s with
  | EmptyString => True
  | String c _ => p c = false
  end.

(** The task is bound to an adapter of the registry. *)
Definition registered (adapters : gmap string aref) (t : Task) : Prop :=
  exists name, adapters !! name = Some (adapter t).

(** *** Reading a trace *)

(** The adapters [verify()] was called on, in the order of the calls. *)
Definition verify_calls (tr : list Event) : list aref :=
  omap (fun ev => match ev with Verify a _ => Some a | _ => None end) tr.

(** The adapters whose [verify()] threw. *)
Definition failed_verify (tr : list Event) : list aref :=
  omap (fun ev => match ev with Verify a (Throw _) => Some a | _ => None end) tr.

(** The [publish] calls, adapter and content, in the order of the calls. *)
Definition publish_calls (tr : list Event) : list (aref * Content) :=
  omap (fun ev => match ev with Publish a c _ => Some (a, c) | _ => None end) tr.

(** What the console got, in order. *)
Definition warnings (tr : list Event) : list string :=
  omap (fun ev => match ev with Warn message => Some message | _ => None end) tr.

(** The first thing that happens, if anything does, is a [publish] call. *)
Definition starts_with_publish (tr : list Event) : Prop :=
  match tr with
  | [] | Publish _ _ _ :: _ => True
  | _ => False
  end.

(** The call a task stands for. *)
Definition call_of (t : Task) : aref * Content := (adapter t, content t).

(** How many times [verify()] was called on [a]. *)
Definition times_verified (a : aref) (tr : list Event) : nat :=
  length (filter (eq a) (verify_calls tr)).

(** No [publish] call of the trace threw. *)
Definition publishes_returned (tr : list Event) : Prop :=
  forall a c e, Publish a c (Throw e) ∉ tr.

(** The delayed tasks in the order their timers fire. *)
Definition fired (delayed : list Task) (order : list nat) : list Task :=
  omap (fun i => delayed !! i) order.

(** The two lanes of a list of tasks. *)
Definition immediate_lane (tasks : list Task) : list Task :=
  filter (fun t => delayMs t = 0) tasks.

Definition deferred_lane (tasks : list Task) : list Task :=
  filter (fun t => delayMs t > 0) tasks.

(** The tasks that pass the gate, read off the trace of the run. *)
Definition survivors (opts : Opts) (tr : list Event) (tasks : list Task)
    : list Task :=
  if opt_verify opts
  then filter (fun t => adapter t ∉ failed_verify tr) tasks
  else tasks.

(** The promise in slot [i] is resolved. *)
Definition resolved (slots : list (option Result)) (i : nat) : Prop :=
  exists r, slots !! i = Some (Some r).

Section Reading.
Context {World : Type}.
Variable heap : aref -> Adapter World.

(** The [id] getter of every adapter the tasks hold returns. *)
Definition ids_implemented (tasks : list Task) : Prop :=
  forall t, t ∈ tasks -> exists i, adapter_id (heap (adapter t)) = Return i.

(** [r] is the result of task [t]: what a [publish] call of the trace
    on the adapter and content of [t] returned, with the rule name of
    [t] and the identifier of its adapter. *)
Definition produced (tr : list Event) (r : Result) (t : Task) : Prop :=
  exists result i,
    Publish (adapter t) (content t) (Return result) ∈ tr
    /\ adapter_id (heap (adapter t)) = Return i
    /\ r = mkResult result t i.
End Reading.

(** ** Models.js: the content model and the schema description *)

(** [new SocialAdapterContent(raw)], and [createContent(raw)] on an object:
    each field is [raw.field ?? default], and only [tags] has a default
    that is not [undefined]. *)
Definition createContent (raw : Content) : Content :=
  {| text := text raw;
     photo := photo raw;
     video := video raw;
     document := document raw;
     audio := audio raw;
     tags := Some (default [] (tags raw));
     type := type raw;
     lang := lang raw |}.

(** [new SocialAdapterContent(raw)] as an object: the constructor assigns
    every field, so the instance has every property. *)
Definition content_instance (raw : Content) : ContentObject :=
  {| own_text := Some (text (createContent raw));
     own_photo := Some (photo (createContent raw));
     own_video := Some (video (createContent raw));
     own_document := Some (document (createContent raw));
     own_audio := Some (audio (createContent raw));
     own_tags := Some (tags (createContent raw));
     own_type := Some (type (createContent raw));
     own_lang := Some (lang (createContent raw)) |}.

(** A stored content with the fields [changes] sets written over it, the
    others kept. *)
Definition overlay (stored changes : Content) : Content :=
  {| text := from_option Some (text stored) (text changes);
     photo := from_option Some (photo stored) (photo changes);
     video := from_option Some (video stored) (video changes);
     document := from_option Some (document stored) (document changes);
     audio := from_option Some (audio stored) (audio changes);
     tags := from_option Some (tags stored) (tags changes);
     type := from_option Some (type stored) (type changes);
     lang := from_option Some (lang stored) (lang changes) |}.

Section Describe.
(** The type of the [default] of a field definition. *)
Context {V : Type}.

(** The value of a static property of a class: a field definition
    [{ help, default }], or anything else (a method, a number, a string). *)
Inductive StaticValue : Type :=
  | FieldDef (help : string) (default : V)
  | OtherValue.

(** An entry of the list [describe()] returns. *)
Record Described : Type := {
  field : string;
  field_help : string;
  field_default : V;
}.

(** [key === 'length' || key === 'prototype' || key === 'name'] *)
Definition is_builtin_key (key : string) : bool :=
  String.eqb key "length" || String.eqb key "prototype"
  || String.eqb key "name".

(** The inner loop [for (const key of Object.getOwnPropertyNames(proto))]
    over the own properties of one class, in their order. *)
Fixpoint describeOwn (props : list (string * StaticValue))
    (seen : gset string) (result : list Described)
    : gset string * list Described :=
  match props with
  | [] => (seen, result)
  | (key, val) :: rest =>
      if bool_decide (key ∈ seen) then describeOwn rest seen result
      else
        let seen := {[key]} ∪ seen in
        if is_builtin_key key then describeOwn rest seen result
        else
          match val with
          | FieldDef help dflt =>
              (* result.unshift(...) *)
              describeOwn rest seen
                ({| field := key; field_help := help; field_default := dflt |}
                   :: result)
          | OtherValue => describeOwn rest seen result
          end
  end.

(** The outer loop [while (proto && proto !== Function.prototype)] along
    the chain of classes, from the class itself to its last ancestor. *)
Fixpoint describeChain (chain : list (list (string * StaticValue)))
    (seen : gset string) (result : list Described) : list Described :=
  match chain with
  | [] => result
  | props :: ancestors =>
      let '(seen, result) := describeOwn props seen result in
      describeChain ancestors seen result
  end.

(** [static describe()], on a class given as its chain of classes. *)
Definition describe (chain : list (list (string * StaticValue)))
    : list Described :=
  describeChain chain ∅ [].

(** What reading [key] on the class gives: the value in the first class
    of the chain that has the property. *)
Fixpoint inherited (key : string) (props : list (string * StaticValue))
    : option StaticValue :=
  match props with
  | [] => None
  | (k, val) :: rest => if String.eqb key k then Some val else inherited key rest
  end.
End Describe.
Arguments StaticValue V : clear implicits.
Arguments Described V : clear implicits.

(** The own properties of [class Model] and of
    [class SocialAdapterConfig extends Model], a default being given as
    its source text. *)
Definition Model_statics : list (string * StaticValue string) :=
  [("length", OtherValue); ("name", OtherValue); ("prototype", OtherValue);
   ("from", OtherValue); ("describe", OtherValue)]%string.

Definition SocialAdapterConfig_statics : list (string * StaticValue string) :=
  [("length", OtherValue); ("name", OtherValue); ("prototype", OtherValue);
   ("id", FieldDef "Unique identifier of the adapter." "undefined");
   ("account",
    FieldDef "Account identifier (for multi-account support)." "undefined");
   ("credentials",
    FieldDef "Key-value store for API tokens, passwords, etc." "{}")]%string.

(** [d] is the entry of a field not seen so far that the properties
    define, at the first place they have its name. *)
Definition from_chain {V : Type} (seen : gset string)
    (props : list (string * StaticValue V)) (d : Described V) : Prop :=
  (field d ∉ seen)
  /\ is_builtin_key (field d) = false
  /\ inherited (field d) props
     = Some (FieldDef (field_help d) (field_default d)).

(** ** More vocabulary *)

(** The media the condition matcher looks at. *)
Definition has_matched_media (content : Content) : Prop :=
  is_reference (photo content) \/ is_reference (document content)
  \/ is_reference (video content).

(** A condition field set to the empty string, which the matcher takes as
    absent, or to the value the content has. *)
Definition field_agrees (wanted got : option string) : Prop :=
  match wanted with
  | None => True
  | Some v => v = EmptyString \/ got = Some v
  end.

(** The content carries one of the tags the condition lists. *)
Definition tags_agree (content : Content) (conditions : Conditions) : Prop :=
  match if_tags conditions with
  | None => True
  | Some (TagArray required) =>
      exists tag, tag ∈ required /\ tag ∈ default [] (tags content)
  | Some (TagSingle t) =>
      t = EmptyString \/ t ∈ default [] (tags content)
  end.

Definition media_agrees (content : Content) (conditions : Conditions) : Prop :=
  match if_hasMedia conditions with
  | None => True
  | Some wanted => wanted = true <-> has_matched_media content
  end.

(** The task a destination with a registered adapter gives, or the error
    of its delay. *)
Definition task_of (now : Z) (content : Content) (rule : Rule)
    (target : Target) (adapter : aref) : completion Task :=
  match parseDelay now (target_delay target) with
  | Return ms =>
      Return {| adapter := adapter;
                content := content;
                delayMs := ms;
                channel := if truthy (target_channel target)
                           then target_channel target else None;
                ruleName := rule_name rule |}
  | Throw e => Throw e
  end.

(** The destinations of a rule that have an adapter in the registry, each
    with the task it gives. *)
Definition rule_tasks (now : Z) (content : Content)
    (adapters : gmap string aref) (rule : Rule) : list (completion Task) :=
  omap (fun target =>
          task_of now content rule target <$> adapters !! target_adapter target)
       (rule_publish rule).

(** The rules whose conditions the content matches. *)
Definition matching_rules (content : Content) (rules : list Rule) : list Rule :=
  filter (fun rule => matchesConditions content (rule_if rule) = true) rules.

(** The values of a list of completions, up to the first that throws. *)
Fixpoint collect {A : Type} (l : list (completion A)) : completion (list A) :=
  match l with
  | [] => Return []
  | Throw e :: _ => Throw e
  | Return a :: rest =>
      match collect rest with
      | Return values => Return (a :: values)
      | Throw e => Throw e
      end
  end.

(** The warnings of a rule: one for each destination without an adapter. *)
Definition rule_warnings (adapters : gmap string aref) (rule : Rule)
    : list string :=
  (fun target => warn_not_found target rule)
    <$> filter (fun target => adapters !! target_adapter target = None)
               (rule_publish rule).

(** The text of the content, if any, is within the limit of the
    reference adapter. *)
Definition fits_limit (content : Content) : Prop :=
  forall t, text content = Some t -> Z.of_nat (String.length t) <= 280.

(** The identifier the reference adapter gives a post it publishes in
    world [w], and the post it stores. *)
Definition next_post_id (w : DummyWorld) : string :=
  "dummy-post-" +:+ pretty (clock w (reads w)).

Definition next_post (content : Content) (w : DummyWorld) : Post :=
  {| post_content := content; post_id := next_post_id w;
     publishedAt := Some (clock w (S (reads w))); updatedAt := None |}.

(** ['a'.repeat(n)] *)
Fixpoint repeat_char (c : ascii) (n : nat) : string :=
  match n with
  | O => EmptyString
  | S n' => String c (repeat_char c n')
  end.

(** A content whose text is over the limit of the reference adapter. *)
Definition long_post : Content :=
  {| text := Some (repeat_char "a" 300); photo := None; video := None;
     document := None; audio := None; tags := None; type := None;
     lang := None |}.


(** A deployment whose clock gives every post the same millisecond. *)
Definition frozen_world : DummyWorld :=
  {| clock := fun _ => 1700000000000; reads := 0; posts := ∅ |}.

(* ================================================================= *)
(** * Properties *)

(** ** Strings *)

Lemma app_cons (c : ascii) (s t : string) :
  String c s +:+ t = String c (s +:+ t).
Proof. reflexivity. Qed.

Lemma app_nil_l (t : string) : EmptyString +:+ t = t.
Proof. reflexivity. Qed.

Ltac norm_app := repeat first [rewrite app_cons | rewrite app_nil_l].

Lemma length_zero_empty (s : string) :
  (0 <? Z.of_nat (String.length s)) = true <-> s <> EmptyString.
Proof.
  destruct s as [|c s]; simpl.
  - split; [discriminate | congruence].
  - split; [discriminate | intros _; apply Z.ltb_lt; lia].
Qed.

Lemma trim_empty : trim EmptyString = EmptyString.
Proof. reflexivity. Qed.

Lemma truthy_reference (v : option string) :
  truthy v = true <-> is_reference v.
Proof.
  unfold truthy, is_reference. destruct v as [s|].
  - destruct (String.eqb_spec s EmptyString) as [->|Hne]; simpl.
    + split; [discriminate | intros (u & [= <-] & Hu); congruence].
    + split; [eauto | reflexivity].
  - split; [discriminate | intros (u & [=] & _)].
Qed.

Lemma truthy_false_reference (v : option string) :
  truthy v = false <-> ~ is_reference v.
Proof.
  rewrite <- truthy_reference. destruct (truthy v); split; congruence.
Qed.

(** ** The content validator *)

Lemma hasText_iff (raw : Content) :
  match text raw with
  | Some t => truthy (Some t) && (0 <? Z.of_nat (String.length (trim t)))
  | None => false
  end = true <-> has_text raw.
Proof.
  unfold has_text. destruct (text raw) as [t|].
  - rewrite andb_true_iff, length_zero_empty. split.
    + intros [_ Hn]. eauto.
    + intros (t' & [= <-] & Hn). split; [|done].
      apply truthy_reference. exists t. split; [done|].
      intros ->. by rewrite trim_empty in Hn.
  - split; [discriminate | intros (t' & [=] & _)].
Qed.

Lemma hasMedia_iff (raw : Content) :
  truthy (photo raw) || truthy (video raw) || truthy (document raw)
  || truthy (audio raw) = true <-> has_media_reference raw.
Proof.
  unfold has_media_reference.
  rewrite !orb_true_iff, !truthy_reference. tauto.
Qed.

Lemma validate_valid_iff (raw : Content) :
  valid (validate raw) = true <-> has_text raw \/ has_media_reference raw.
Proof.
  rewrite <- hasText_iff, <- hasMedia_iff. unfold validate.
  destruct (match text raw with Some _ => _ | None => _ end);
    destruct (truthy (photo raw) || truthy (video raw)
              || truthy (document raw) || truthy (audio raw));
    simpl; intuition discriminate.
Qed.

Lemma validate_errors (raw : Content) :
  (valid (validate raw) = true /\ errors (validate raw) = [])
  \/ (valid (validate raw) = false
      /\ errors (validate raw) =
         ["content must have at least text or one media field (photo, video, document, audio)"%string]).
Proof.
  unfold validate.
  match goal with |- context [if ?b then _ else _] => destruct b end;
    simpl; auto.
Qed.

(** C9. [validate] accepts a content exactly when it has non-empty trimmed
    text or at least one media reference (photo, video, document or
    audio); a content it rejects gets exactly one error, and that error
    mentions text and media. In particular [validate({})] is invalid,
    [validate({photo: "u"})] is valid, and [validate({text: ""})] and a
    text of blanks are invalid. *)
Theorem validate_spec :
  (forall raw,
     valid (validate raw) = true <-> has_text raw \/ has_media_reference raw)
  /\ (forall raw,
        (valid (validate raw) = true /\ errors (validate raw) = [])
        \/ (valid (validate raw) = false
            /\ exists e, errors (validate raw) = [e]
                         /\ includes e "text" = true
                         /\ includes e "media" = true))
  /\ valid (validate emptyContent) = false
  /\ valid (validate {| text := None; photo := Some "u"%string; video := None;
                        document := None; audio := None; tags := None;
                        type := None; lang := None |}) = true
  /\ valid (validate {| text := Some ""%string; photo := None; video := None;
                        document := None; audio := None; tags := None;
                        type := None; lang := None |}) = false
  /\ valid (validate {| text := Some "   "%string; photo := None; video := None;
                        document := None; audio := None; tags := None;
                        type := None; lang := None |}) = false.
Proof.
  split; [exact validate_valid_iff|].
  split; [|by vm_compute].
  intros raw. destruct (validate_errors raw) as [H | [Hv He]]; [by left|].
  right. split; [done|]. eexists. split; [exact He|]. by vm_compute.
Qed.

(** ** The condition matcher *)

(** C4. A content whose only media reference is an audio file has a media
    reference, and the validator counts it, yet the matcher reads only
    [photo], [document] and [video]: the condition [hasMedia: true] does
    not match it. *)
Theorem matchesConditions_hasMedia_misses_audio :
  has_media_reference voice_note
  /\ valid (validate voice_note) = true
  /\ matchesConditions voice_note (Some wants_media) = false.
Proof.
  split; [|by vm_compute].
  do 3 right. exists "a.mp3"%string. by split.
Qed.

(** ** The adapter protocol *)

(** C6. The base class defines no [update]: on an adapter that lacks the
    [edit] token, and whose class does not add the method, the call ends in
    the [TypeError] of a missing property. That is neither the error raised
    for a missing capability, which [delete], the sibling, does raise, nor
    the [NotImplementedError] of an abstract member such as [verify]. *)
Theorem update_without_edit_is_type_error {World : Type}
    (cname : string) (the_id : completion string) (caps : list string)
    (postId : string) (content : ContentObject) (w : World) :
  let this := SocialAdapter_members cname the_id caps in
  call_update this postId content w
    = (Throw (TypeError "adapter.update is not a function"), w)
  /\ is_capability_error (TypeError "adapter.update is not a function") = false
  /\ is_not_implemented (TypeError "adapter.update is not a function") = false
  /\ verify (World := World) SocialAdapter w
     = (Throw (NotImplementedError "verify"), w)
  /\ can (World := World) SocialAdapter "edit" = false
  /\ delete (World := World) SocialAdapter postId w
     = (Throw (Error "Adapter 'SocialAdapter' does not support deleting posts."), w)
  /\ is_capability_error
       (Error "Adapter 'SocialAdapter' does not support deleting posts.") = true.
Proof. by vm_compute. Qed.

(** ** Rule evaluation *)

(** C7. A content that fails validation makes [evaluateRules] throw the
    validation error, carrying all the errors of the validator, whatever
    the rules and the registry are: no rule is matched, nothing is logged
    and no task is produced. *)
Theorem evaluateRules_rejects_invalid (now : Z) (content : Content)
    (rules : list Rule) (adapters : gmap string aref) :
  valid (validate content) = false ->
  evaluateRules now content rules adapters
  = ([], Throw (SocialAdapterValidationError (errors (validate content))))
  /\ errors (validate content) <> [].
Proof.
  intros Hv. unfold evaluateRules. rewrite Hv. split; [done|].
  destruct (validate_errors content) as [[H _] | [_ ->]]; congruence.
Qed.

Lemma evaluateRules_rejects_invalid_witness :
  valid (validate emptyContent) = false
  /\ evaluateRules 0 emptyContent demo_rules demo_registry
     = ([], Throw (SocialAdapterValidationError (errors (validate emptyContent)))).
Proof.
  split; [reflexivity|].
  apply (evaluateRules_rejects_invalid 0 emptyContent demo_rules demo_registry).
  reflexivity.
Defined.

(** ** The delay grammar: the matchers against the forms *)

Lemma span_spec (p : ascii -> bool) (s a b : string) :
  span p s = (a, b) -> s = a +:+ b /\ every p a = true /\ stops p b.
Proof.
  revert a b. induction s as [|c s IH]; simpl; intros a b.
  - intros [= <- <-]. by repeat split.
  - destruct (p c) eqn:Hc.
    + destruct (span p s) as [a' b'] eqn:Hs. intros [= <- <-].
      destruct (IH a' b' eq_refl) as (-> & Ha & Hb).
      repeat split; [|done]. simpl. by rewrite Hc, Ha.
    + intros [= <- <-]. by repeat split.
Qed.

Lemma span_app (p : ascii -> bool) (a b : string) :
  every p a = true -> stops p b -> span p (a +:+ b) = (a, b).
Proof.
  intros Ha Hb. induction a as [|c a IH].
  - rewrite app_nil_l. destruct b as [|c b]; simpl in *; [done|by rewrite Hb].
  - simpl in Ha. apply andb_true_iff in Ha as [Hc Ha]. rewrite app_cons.
    simpl. by rewrite Hc, (IH Ha).
Qed.

Lemma digit_not_space (c : ascii) : is_digit c = true -> is_white_space c = false.
Proof. destruct c as [[] [] [] [] [] [] [] []]; by vm_compute. Qed.

Lemma unit_cases (u : ascii) :
  match u with
  | "m" | "h" | "d" => true
  | _ => false
  end%char = true <-> u ∈ ["m"; "h"; "d"]%char.
Proof.
  split.
  - destruct u as [[] [] [] [] [] [] [] []]; try discriminate; intros _;
      set_solver.
  - intros H. repeat (apply elem_of_cons in H as [-> | H]; [done|]).
    by apply elem_of_nil in H.
Qed.

Lemma match_hh_mm_sound (s hh mm : string) :
  match_hh_mm s = Some (hh, mm) ->
  time_of_day hh mm /\ s = hh +:+ ":" +:+ mm.
Proof.
  unfold match_hh_mm, time_of_day.
  destruct s as [|h1 [|h2 [|c s]]]; try discriminate.
  destruct (ascii_dec c ":") as [->|Hc].
  - destruct s as [|m1 [|m2 [|? ?]]]; try discriminate.
    destruct (is_digit h1) eqn:H1, (is_digit h2) eqn:H2,
      (is_digit m1) eqn:H3, (is_digit m2) eqn:H4; simpl; try discriminate.
    intros [= <- <-]. simpl. by rewrite H1, H2, H3, H4.
  - destruct c as [[] [] [] [] [] [] [] []]; try discriminate; congruence.
Qed.

Lemma match_hh_mm_complete (hh mm : string) :
  time_of_day hh mm -> match_hh_mm (hh +:+ ":" +:+ mm) = Some (hh, mm).
Proof.
  intros (Lh & Dh & Lm & Dm).
  destruct hh as [|h1 [|h2 [|? ?]]]; try discriminate.
  destruct mm as [|m1 [|m2 [|? ?]]]; try discriminate.
  simpl in Dh, Dm. rewrite !andb_true_iff in Dh, Dm.
  destruct Dh as (H1 & H2 & _), Dm as (H3 & H4 & _).
  unfold match_hh_mm. norm_app.
  by rewrite H1, H2, H3, H4.
Qed.

Lemma match_duration_sound (str n : string) (u : ascii) :
  match_duration str = Some (n, u) -> duration_form str.
Proof.
  unfold match_duration, duration_form.
  destruct (span is_digit str) as [digits rest] eqn:Hs.
  apply span_spec in Hs as (-> & Hd & _).
  destruct digits as [|d ds]; [discriminate|].
  destruct rest as [|unit [|? ?]]; try discriminate.
  destruct (match unit with "m" | "h" | "d" => true | _ => false end%char)
    eqn:Hu.
  - intros _. exists (String d ds), unit.
    split; [done|]. split; [done|]. split; [by apply unit_cases | done].
  - destruct unit as [[] [] [] [] [] [] [] []]; discriminate.
Qed.

Lemma match_duration_complete (n : string) (u : ascii) :
  n <> EmptyString -> every is_digit n = true -> u ∈ ["m"; "h"; "d"]%char ->
  match_duration (n +:+ String u EmptyString) = Some (n, u).
Proof.
  intros Hn Hd Hu. unfold match_duration.
  rewrite (span_app is_digit n (String u EmptyString) Hd).
  - destruct n; [done|].
    repeat (apply elem_of_cons in Hu as [-> | Hu]; [done|]).
    by apply elem_of_nil in Hu.
  - simpl. repeat (apply elem_of_cons in Hu as [-> | Hu]; [done|]).
    by apply elem_of_nil in Hu.
Qed.

Lemma time_of_day_stops (hh mm : string) :
  time_of_day hh mm -> stops is_white_space (hh +:+ ":" +:+ mm).
Proof.
  intros (Lh & Dh & _). destruct hh as [|h1 hh]; [discriminate|].
  norm_app. simpl in *. apply andb_true_iff in Dh as [H1 _].
  by apply digit_not_space.
Qed.

Lemma match_duration_time_sound (str n hh mm : string) :
  match_duration_time str = Some (n, hh, mm) -> day_time_form str.
Proof.
  unfold match_duration_time, day_time_form.
  destruct (span is_digit str) as [digits rest] eqn:Hs.
  apply span_spec in Hs as (-> & Hd & _).
  destruct digits as [|d ds]; [discriminate|].
  destruct rest as [|c rest]; [discriminate|].
  destruct (ascii_dec c "d") as [->|Hc];
    [|destruct c as [[] [] [] [] [] [] [] []]; try discriminate; congruence].
  destruct (span is_white_space rest) as [spaces tail] eqn:Hw.
  apply span_spec in Hw as (-> & Hsp & _).
  destruct spaces as [|s0 sp]; [discriminate|].
  destruct (match_hh_mm tail) as [[hh' mm']|] eqn:Ht; [|discriminate].
  apply match_hh_mm_sound in Ht as (Htod & ->).
  intros _. exists (String d ds), (String s0 sp), hh', mm'.
  repeat (split; [done|]). reflexivity.
Qed.

Lemma match_duration_time_complete (n spaces hh mm : string) :
  n <> EmptyString -> every is_digit n = true ->
  spaces <> EmptyString -> every is_white_space spaces = true ->
  time_of_day hh mm ->
  match_duration_time (n +:+ "d" +:+ spaces +:+ hh +:+ ":" +:+ mm)
  = Some (n, hh, mm).
Proof.
  intros Hn Hd Hs Hw Htod. unfold match_duration_time.
  rewrite (span_app is_digit n _ Hd) by done.
  destruct n; [done|]. rewrite (app_cons "d"), app_nil_l.
  rewrite (span_app is_white_space spaces _ Hw)
    by by apply time_of_day_stops.
  destruct spaces; [done|]. by rewrite match_hh_mm_complete.
Qed.

Lemma weekday_three (day : string) :
  day ∈ weekdays ->
  exists a b c, day = String a (String b (String c EmptyString)).
Proof.
  intros H. unfold weekdays in H.
  repeat (apply elem_of_cons in H as [-> | H]; [by eauto|]).
  by apply elem_of_nil in H.
Qed.

Lemma match_weekday_sound (str day hh mm : string) :
  match_weekday str = Some (day, hh, mm) -> weekday_form str.
Proof.
  unfold match_weekday, weekday_form.
  destruct str as [|a [|b [|c rest]]]; try discriminate.
  case_bool_decide as Hday; [|discriminate].
  destruct (span is_white_space rest) as [spaces tail] eqn:Hw.
  apply span_spec in Hw as (-> & Hsp & _).
  destruct spaces as [|s0 sp]; [discriminate|].
  destruct (match_hh_mm tail) as [[hh' mm']|] eqn:Ht; [|discriminate].
  apply match_hh_mm_sound in Ht as (Htod & ->).
  intros _. eexists _, (String s0 sp), hh', mm'.
  repeat (split; [done|]). reflexivity.
Qed.

Lemma match_weekday_complete (day spaces hh mm : string) :
  day ∈ weekdays ->
  spaces <> EmptyString -> every is_white_space spaces = true ->
  time_of_day hh mm ->
  match_weekday (day +:+ spaces +:+ hh +:+ ":" +:+ mm) = Some (day, hh, mm).
Proof.
  intros Hday Hs Hw Htod.
  destruct (weekday_three day Hday) as (a & b & c & ->).
  unfold match_weekday.
  rewrite (app_cons a), (app_cons b), (app_cons c), app_nil_l.
  rewrite bool_decide_eq_true_2 by done.
  rewrite (span_app is_white_space spaces _ Hw)
    by by apply time_of_day_stops.
  destruct spaces; [done|]. by rewrite match_hh_mm_complete.
Qed.

Lemma parseDelay_string_returns (now : Z) (s : string) :
  accepted_literal s -> exists ms, parseDelay now (DelayString s) = Return ms.
Proof.
  intros Hacc. unfold parseDelay.
  destruct (String.eqb_spec s "0") as [->|Hne]; [by eauto|].
  destruct (match_duration (trim s)) as [[digits unit]|] eqn:H1.
  { destruct unit as [[] [] [] [] [] [] [] []]; eauto. }
  destruct (match_duration_time (trim s)) as [[[d hh] mm]|] eqn:H2; [by eauto|].
  destruct (match_weekday (trim s)) as [[[day hh] mm]|] eqn:H3; [by eauto|].
  exfalso. destruct Hacc as [-> | [Hf | [Hf | Hf]]]; [done| | |].
  - destruct Hf as (n & u & Hn & Hd & Hu & Heq).
    rewrite Heq, match_duration_complete in H1; done.
  - destruct Hf as (n & sp & hh & mm & Hn & Hd & Hs & Hw & Ht & Heq).
    rewrite Heq, match_duration_time_complete in H2; done.
  - destruct Hf as (day & sp & hh & mm & Hday & Hs & Hw & Ht & Heq).
    rewrite Heq, match_weekday_complete in H3; done.
Qed.

Lemma parseDelay_string_throws (now : Z) (s : string) :
  ~ accepted_literal s ->
  parseDelay now (DelayString s)
  = Throw (Error ("Invalid delay format: '" +:+ s +:+ "'")).
Proof.
  intros Hacc. unfold parseDelay, accepted_literal in *.
  destruct (String.eqb_spec s "0") as [->|Hne]; [tauto|].
  destruct (match_duration (trim s)) as [[digits unit]|] eqn:H1.
  { apply match_duration_sound in H1. tauto. }
  destruct (match_duration_time (trim s)) as [[[d hh] mm]|] eqn:H2.
  { apply match_duration_time_sound in H2. tauto. }
  destruct (match_weekday (trim s)) as [[[day hh] mm]|] eqn:H3.
  { apply match_weekday_sound in H3. tauto. }
  done.
Qed.

Lemma parseDelay_day_time (now : Z) (s n spaces hh mm : string) :
  s <> "0"%string ->
  n <> EmptyString -> every is_digit n = true ->
  spaces <> EmptyString -> every is_white_space spaces = true ->
  time_of_day hh mm ->
  trim s = n +:+ "d" +:+ spaces +:+ hh +:+ ":" +:+ mm ->
  parseDelay now (DelayString s)
  = Return (parseInt n * 86400000 + parseInt hh * 3600000
            + parseInt mm * 60000).
Proof.
  intros Hs Hn Hd Hsp Hw Ht Heq. unfold parseDelay.
  destruct (String.eqb_spec s "0") as [->|_]; [done|].
  rewrite Heq.
  assert (match_duration (n +:+ "d" +:+ spaces +:+ hh +:+ ":" +:+ mm) = None)
    as ->.
  { unfold match_duration. rewrite (span_app is_digit n _ Hd) by done.
    destruct n; [done|]. rewrite (app_cons "d"), app_nil_l.
    destruct spaces; [done|]. by rewrite app_cons. }
  rewrite match_duration_time_complete by done. f_equal. lia.
Qed.

(** C5. [parseDelay] maps [0], ["0"] and an absent delay to 0, and a number
    to itself; ["30m"], ["2h"], ["1d"] and ["1d 09:00"] to 1 800 000,
    7 200 000, 86 400 000 and 1 * 86 400 000 + 9 * 3 600 000; any literal
    [<N>d HH:MM] to the sum of its days, hours and minutes, as long as
    that sum is within [MAX_SAFE_INTEGER], where the arithmetic of the
    code is exact; and it throws the error naming the literal on every
    literal outside the grammar, on those only, ["tomorrow"] and ["5x"]
    among them. *)
Theorem parseDelay_grammar (now : Z) :
  parseDelay now (DelayNumber 0) = Return 0
  /\ parseDelay now (DelayString "0") = Return 0
  /\ parseDelay now DelayAbsent = Return 0
  /\ (forall n, parseDelay now (DelayNumber n) = Return n)
  /\ parseDelay now (DelayString "30m") = Return 1800000
  /\ parseDelay now (DelayString "2h") = Return 7200000
  /\ parseDelay now (DelayString "1d") = Return 86400000
  /\ parseDelay now (DelayString "1d 09:00")
     = Return (1 * 86400000 + 9 * 3600000)
  /\ (forall s n spaces hh mm,
        s <> "0"%string ->
        n <> EmptyString -> every is_digit n = true ->
        spaces <> EmptyString -> every is_white_space spaces = true ->
        time_of_day hh mm ->
        trim s = n +:+ "d" +:+ spaces +:+ hh +:+ ":" +:+ mm ->
        parseInt n * 86400000 + parseInt hh * 3600000 + parseInt mm * 60000
        <= MAX_SAFE_INTEGER ->
        parseDelay now (DelayString s)
        = Return (parseInt n * 86400000 + parseInt hh * 3600000
                  + parseInt mm * 60000))
  /\ (forall s, accepted_literal s <->
                exists ms, parseDelay now (DelayString s) = Return ms)
  /\ (forall s, ~ accepted_literal s <->
                parseDelay now (DelayString s)
                = Throw (Error ("Invalid delay format: '" +:+ s +:+ "'")))
  /\ parseDelay now (DelayString "tomorrow")
     = Throw (Error "Invalid delay format: 'tomorrow'")
  /\ parseDelay now (DelayString "5x")
     = Throw (Error "Invalid delay format: '5x'").
Proof.
  assert (Hdec : forall s, accepted_literal s \/ ~ accepted_literal s).
  { intros s. destruct (parseDelay now (DelayString s)) as [ms|e] eqn:Hp.
    - left. destruct (String.eqb_spec s "0") as [->|Hne]; [by left|].
      unfold parseDelay in Hp.
      destruct (String.eqb_spec s "0") as [->|_]; [done|].
      destruct (match_duration (trim s)) as [[digits unit]|] eqn:H1.
      { apply match_duration_sound in H1. right. by left. }
      destruct (match_duration_time (trim s)) as [[[d hh] mm]|] eqn:H2.
      { apply match_duration_time_sound in H2. right. right. by left. }
      destruct (match_weekday (trim s)) as [[[day hh] mm]|] eqn:H3.
      { apply match_weekday_sound in H3. by do 3 right. }
      discriminate.
    - right. intros Hacc.
      destruct (parseDelay_string_returns now s Hacc) as [ms Hms]. congruence. }
  repeat split; try reflexivity.
  - intros n. simpl. destruct (Z.eqb_spec n 0) as [->|_]; done.
  - intros s n spaces hh mm ? ? ? ? ? ? ? _.
    by apply (parseDelay_day_time now s n spaces hh mm).
  - apply parseDelay_string_returns.
  - intros [ms Hms]. destruct (Hdec s) as [H|H]; [done|].
    rewrite (parseDelay_string_throws now s H) in Hms. discriminate.
  - apply parseDelay_string_throws.
  - intros Hthrow Hacc.
    destruct (parseDelay_string_returns now s Hacc) as [ms Hms]. congruence.
Qed.

Lemma parseDelay_grammar_witness :
  parseDelay 0 (DelayNumber (-5)) = Return (-5)
  /\ parseDelay 0 (DelayString "  2d   14:30 ")
     = Return (parseInt "2" * 86400000 + parseInt "14" * 3600000
               + parseInt "30" * 60000)
  /\ parseDelay 0 (DelayString "50ms")
     = Throw (Error "Invalid delay format: '50ms'").
Proof.
  destruct (parseDelay_grammar 0)
    as (_ & _ & _ & Hnum & _ & _ & _ & _ & Hadd & _ & Hthrow & _).
  split; [apply Hnum|]. split.
  - apply (Hadd "  2d   14:30 " "2" "   " "14" "30")%string;
      [discriminate | discriminate | reflexivity | discriminate
      | reflexivity | by vm_compute | reflexivity | by vm_compute].
  - apply Hthrow. intros [H | [H | [H | H]]]; [discriminate| | |].
    + destruct H as (n & u & Hn & Hd & Hu & Heq).
      pose proof (match_duration_complete n u Hn Hd Hu) as Hm.
      rewrite <- Heq in Hm. discriminate.
    + destruct H as (n & sp & hh & mm & Hn & Hd & Hs & Hw & Ht & Heq).
      pose proof (match_duration_time_complete n sp hh mm Hn Hd Hs Hw Ht) as Hm.
      rewrite <- Heq in Hm. discriminate.
    + destruct H as (day & sp & hh & mm & Hday & Hs & Hw & Ht & Heq).
      pose proof (match_weekday_complete day sp hh mm Hday Hs Hw Ht) as Hm.
      rewrite <- Heq in Hm. discriminate.
Defined.

(** ** The delay grammar: weekdays *)

Lemma digit_value_range (c : ascii) :
  is_digit c = true -> 0 <= digit_value c <= 9.
Proof.
  destruct c as [[] [] [] [] [] [] [] []]; try discriminate; intros _;
    by vm_compute.
Qed.

Lemma parseInt_go_nonneg (acc : Z) (s : string) :
  0 <= acc -> every is_digit s = true -> 0 <= parseInt_go acc s.
Proof.
  revert acc. induction s as [|c s IH]; intros acc Hacc Hd; [done|].
  simpl in *. apply andb_true_iff in Hd as [Hc Hd].
  apply IH; [|done]. pose proof (digit_value_range c Hc). lia.
Qed.

Lemma getDay_range (date : Z) : 0 <= getDay date < 7.
Proof. unfold getDay. apply Z.mod_pos_bound. lia. Qed.

Lemma indexOf_weekday (day : string) :
  day ∈ weekdays -> 0 <= indexOf day dayNames <= 6.
Proof.
  intros H. unfold weekdays in H.
  repeat (apply elem_of_cons in H as [-> | H]; [by vm_compute|]).
  by apply elem_of_nil in H.
Qed.

Lemma weekday_not_duration (day rest : string) :
  day ∈ weekdays ->
  match_duration (day +:+ rest) = None
  /\ match_duration_time (day +:+ rest) = None.
Proof.
  intros H. unfold weekdays in H.
  repeat (apply elem_of_cons in H as [-> | H]; [by split|]).
  by apply elem_of_nil in H.
Qed.

(** What the weekday form returns: at least one day and at most seven are
    added to today, by the weekday numbers alone, and the target is the
    time [hh:mm] of that day. The result is positive; on the weekday named
    by the literal it is a whole week plus the time left (or minus the time
    passed) to [hh:mm] today. *)
Lemma parseDelay_weekday (now : Z) (s day spaces hh mm : string) :
  s <> "0"%string ->
  day ∈ weekdays ->
  spaces <> EmptyString -> every is_white_space spaces = true ->
  time_of_day hh mm ->
  trim s = day +:+ spaces +:+ hh +:+ ":" +:+ mm ->
  exists ms,
    parseDelay now (DelayString s) = Return ms
    /\ 0 < ms
    /\ ms <= 7 * MS_PER_DAY + parseInt hh * 3600000 + parseInt mm * 60000
    /\ (getDay now = indexOf day dayNames ->
        ms = 7 * MS_PER_DAY + parseInt hh * 3600000 + parseInt mm * 60000
             - now mod MS_PER_DAY).
Proof.
  intros Hs Hday Hsp Hw Ht Heq. unfold parseDelay.
  destruct (String.eqb_spec s "0") as [->|_]; [done|].
  rewrite Heq.
  destruct (weekday_not_duration day (spaces +:+ hh +:+ ":" +:+ mm) Hday)
    as [-> ->].
  rewrite match_weekday_complete by done.
  eexists. split; [reflexivity|].
  pose proof (indexOf_weekday day Hday) as Hk.
  pose proof (getDay_range now) as Hg.
  destruct Ht as (_ & Hdh & _ & Hdm).
  pose proof (parseInt_go_nonneg 0 hh (Z.le_refl 0) Hdh) as Hh.
  pose proof (parseInt_go_nonneg 0 mm (Z.le_refl 0) Hdm) as Hm.
  fold (parseInt hh) in Hh. fold (parseInt mm) in Hm.
  unfold setHours, addDate.
  set (k := indexOf day dayNames) in *. set (g := getDay now) in *.
  set (d := if k - g <=? 0 then k - g + 7 else k - g).
  assert (Hd : 1 <= d <= 7).
  { unfold d. destruct (Z.leb_spec (k - g) 0); lia. }
  assert (Hdiv : (now + d * MS_PER_DAY) / MS_PER_DAY = now / MS_PER_DAY + d).
  { apply Z.div_add. unfold MS_PER_DAY. lia. }
  rewrite Hdiv.
  pose proof (Z.div_mod now MS_PER_DAY) as Hdm'.
  pose proof (Z.mod_pos_bound now MS_PER_DAY) as Hmod.
  unfold MS_PER_DAY in *.
  split; [lia|]. split; [lia|].
  intros Hsame. assert (d = 7) as ->; [|lia].
  unfold d. destruct (Z.leb_spec (k - g) 0); lia.
Qed.

(** C3. On a Monday at 09:00, ["Mon 10:00"] is one hour away; the parser
    goes a whole week further and returns seven days and one hour, more
    than the 604 800 000 ms of a week. *)
Theorem parseDelay_weekday_same_day :
  getDay monday_9am = 1
  /\ setHours monday_9am 10 0 - monday_9am = 3600000
  /\ parseDelay monday_9am (DelayString "Mon 10:00") = Return 608400000
  /\ 604800000 < 608400000.
Proof. by vm_compute. Qed.

(** ** Rule evaluation: destinations without an adapter *)

Lemma evaluateTargets_drop_unknown (now : Z) (content : Content)
    (rule rule' : Rule) (adapters : gmap string aref)
    (targets : list Target) (tasks : list Task) :
  rule_name rule' = rule_name rule ->
  evaluateTargets now content rule' adapters
    (filter (fun target => is_Some (adapters !! target_adapter target)) targets)
    tasks
  = ([], (evaluateTargets now content rule adapters targets tasks).2).
Proof.
  intros Hname. revert tasks.
  induction targets as [|target rest IH]; intros tasks; [done|].
  simpl. destruct (adapters !! target_adapter target) as [a|] eqn:Ha.
  - rewrite filter_cons_True by (rewrite Ha; eauto). simpl. rewrite Ha.
    destruct (parseDelay now (target_delay target)) as [ms|e]; [|done].
    rewrite Hname. apply IH.
  - rewrite filter_cons_False by (rewrite Ha; by intros [? ?]).
    rewrite IH.
    by destruct (evaluateTargets now content rule adapters rest tasks).
Qed.

Lemma evaluateLoop_drop_unknown (now : Z) (content : Content)
    (adapters : gmap string aref) (rules : list Rule) (tasks : list Task) :
  evaluateLoop now content adapters (drop_unknown adapters <$> rules) tasks
  = ([], (evaluateLoop now content adapters rules tasks).2).
Proof.
  revert tasks. induction rules as [|rule rest IH]; intros tasks; [done|].
  simpl. destruct (matchesConditions content (rule_if rule)); simpl; [|apply IH].
  rewrite (evaluateTargets_drop_unknown now content rule) by done.
  destruct (evaluateTargets now content rule adapters (rule_publish rule) tasks)
    as [log [tasks'|e]]; simpl; [|done].
  rewrite IH.
  by destruct (evaluateLoop now content adapters rest tasks').
Qed.

Lemma evaluateTargets_registered (now : Z) (content : Content) (rule : Rule)
    (adapters : gmap string aref) (targets : list Target)
    (tasks tasks' : list Task) :
  Forall (registered adapters) tasks ->
  (evaluateTargets now content rule adapters targets tasks).2 = Return tasks' ->
  Forall (registered adapters) tasks'.
Proof.
  revert tasks. induction targets as [|target rest IH]; intros tasks Hreg; simpl.
  - by intros [= <-].
  - destruct (adapters !! target_adapter target) as [a|] eqn:Ha.
    + destruct (parseDelay now (target_delay target)) as [ms|e]; [|done].
      apply IH. apply Forall_app. split; [done|].
      apply Forall_singleton. by exists (target_adapter target).
    + destruct (evaluateTargets now content rule adapters rest tasks)
        as [log r] eqn:He. simpl. intros ->.
      apply (IH tasks Hreg). by rewrite He.
Qed.

Lemma evaluateLoop_registered (now : Z) (content : Content)
    (adapters : gmap string aref) (rules : list Rule)
    (tasks tasks' : list Task) :
  Forall (registered adapters) tasks ->
  (evaluateLoop now content adapters rules tasks).2 = Return tasks' ->
  Forall (registered adapters) tasks'.
Proof.
  revert tasks. induction rules as [|rule rest IH]; intros tasks Hreg; simpl.
  - by intros [= <-].
  - destruct (matchesConditions content (rule_if rule)); simpl; [|by apply IH].
    destruct (evaluateTargets now content rule adapters (rule_publish rule) tasks)
      as [log [tasks1|e]] eqn:He; [|done].
    destruct (evaluateLoop now content adapters rest tasks1) as [log' r] eqn:Hl.
    simpl. intros ->. apply (IH tasks1).
    + apply (evaluateTargets_registered now content rule adapters
               (rule_publish rule) tasks); [done | by rewrite He].
    + by rewrite Hl.
Qed.

Lemma evaluateLoop_no_targets (now : Z) (content : Content)
    (adapters : gmap string aref) (rules : list Rule) (tasks : list Task) :
  Forall (fun rule => rule_publish rule = []) rules ->
  evaluateLoop now content adapters rules tasks = ([], Return tasks).
Proof.
  intros Hall. induction Hall as [|rule rest Hrule _ IH]; [done|].
  simpl. rewrite Hrule. simpl. rewrite IH.
  by destruct (matchesConditions content (rule_if rule)).
Qed.

(** C8. A destination whose adapter the registry lacks is skipped with a
    warning, and the evaluation goes on with the next destination on the
    same tasks; so [evaluateRules] completes as it does on the rules
    without such destinations, where it warns about nothing, and no task
    it returns is bound to an unregistered adapter. The delay of a skipped
    destination is never parsed: it cannot make the evaluation throw, and
    rules whose destinations are all unknown give no task and no error. *)
Theorem evaluateRules_skips_unknown (now : Z) (content : Content)
    (rules : list Rule) (adapters : gmap string aref) :
  (forall rule target rest tasks,
     adapters !! target_adapter target = None ->
     evaluateTargets now content rule adapters (target :: rest) tasks
     = (warn_not_found target rule
          :: (evaluateTargets now content rule adapters rest tasks).1,
        (evaluateTargets now content rule adapters rest tasks).2))
  /\ evaluateRules now content (drop_unknown adapters <$> rules) adapters
     = ([], (evaluateRules now content rules adapters).2)
  /\ (forall tasks,
        (evaluateRules now content rules adapters).2 = Return tasks ->
        Forall (registered adapters) tasks)
  /\ (valid (validate content) = true ->
      (forall rule target,
         rule ∈ rules -> target ∈ rule_publish rule ->
         adapters !! target_adapter target = None) ->
      (evaluateRules now content rules adapters).2 = Return []).
Proof.
  split; [|split; [|split]].
  - intros rule target rest tasks Hnone. simpl. rewrite Hnone.
    by destruct (evaluateTargets now content rule adapters rest tasks).
  - unfold evaluateRules.
    destruct (valid (validate content)); simpl; [|done].
    apply evaluateLoop_drop_unknown.
  - intros tasks. unfold evaluateRules.
    destruct (valid (validate content)); simpl; [|done].
    by apply evaluateLoop_registered.
  - intros Hv Hunknown. unfold evaluateRules. rewrite Hv. simpl.
    pose proof (evaluateLoop_drop_unknown now content adapters rules []) as Hd.
    rewrite evaluateLoop_no_targets in Hd; [by injection Hd as <-|].
    apply Forall_fmap, Forall_forall. intros rule Hrule. simpl.
    apply elem_of_nil_inv. intros target Ht.
    apply list_elem_of_filter in Ht as [[a Ha] Ht].
    rewrite (Hunknown rule target Hrule Ht) in Ha. discriminate.
Qed.

Lemma evaluateRules_skips_unknown_witness :
  evaluateRules 0 hello demo_rules demo_registry
  = (["[share.app] Adapter 'nonexistent' not found, skipping rule 'Unknown adapter'"%string],
     Return [demo_task 1 0 "Public posts to Dummy"])
  /\ evaluateRules 0 hello (drop_unknown demo_registry <$> demo_rules)
       demo_registry
     = ([], Return [demo_task 1 0 "Public posts to Dummy"]).
Proof.
  split; [by vm_compute|].
  destruct (evaluateRules_skips_unknown 0 hello demo_rules demo_registry)
    as (_ & -> & _).
  by vm_compute.
Defined.

(** ** The task dispatcher *)

Lemma verify_calls_app (tr1 tr2 : list Event) :
  verify_calls (tr1 ++ tr2) = verify_calls tr1 ++ verify_calls tr2.
Proof. apply omap_app. Qed.

Lemma failed_verify_app (tr1 tr2 : list Event) :
  failed_verify (tr1 ++ tr2) = failed_verify tr1 ++ failed_verify tr2.
Proof. apply omap_app. Qed.

Lemma publish_calls_app (tr1 tr2 : list Event) :
  publish_calls (tr1 ++ tr2) = publish_calls tr1 ++ publish_calls tr2.
Proof. apply omap_app. Qed.

Lemma times_verified_app (a : aref) (tr1 tr2 : list Event) :
  times_verified a (tr1 ++ tr2) = (times_verified a tr1 + times_verified a tr2)%nat.
Proof.
  unfold times_verified. by rewrite verify_calls_app, filter_app, length_app.
Qed.

Lemma times_verified_none (a : aref) (tr : list Event) :
  verify_calls tr = [] -> times_verified a tr = 0%nat.
Proof. unfold times_verified. by intros ->. Qed.

Lemma publishes_returned_app (tr1 tr2 : list Event) :
  publishes_returned (tr1 ++ tr2)
  <-> publishes_returned tr1 /\ publishes_returned tr2.
Proof.
  unfold publishes_returned. split.
  - intros H. split; intros a c e Hin; apply (H a c e), elem_of_app; auto.
  - intros [H1 H2] a c e Hin. apply elem_of_app in Hin as [Hin | Hin];
      [by apply H1 in Hin | by apply H2 in Hin].
Qed.

Lemma failed_verify_sub (tr : list Event) (a : aref) :
  a ∈ failed_verify tr -> a ∈ verify_calls tr.
Proof.
  unfold failed_verify, verify_calls. rewrite !list_elem_of_omap.
  intros (ev & Hin & Hev). exists ev. split; [done|].
  destruct ev as [a' [b|e]| | |]; simpl in *; congruence.
Qed.

Lemma filter_all {A : Type} (P : A -> Prop) `{forall x, Decision (P x)}
    (l : list A) :
  (forall x, x ∈ l -> P x) -> filter P l = l.
Proof.
  induction l as [|x l IH]; intros Hall; [done|].
  rewrite filter_cons_True by (apply Hall, list_elem_of_here).
  f_equal. apply IH. intros y Hy. by apply Hall, list_elem_of_further.
Qed.

Section DispatcherFacts.
Context {World : Type}.
Variable heap : aref -> Adapter World.
Variable fire_order : list Task -> list nat.

Lemma produced_app_l (tr1 tr2 : list Event) (r : Result) (t : Task) :
  produced heap tr1 r t -> produced heap (tr1 ++ tr2) r t.
Proof.
  intros (pr & i & Hin & Hid & ->). exists pr, i.
  split; [|done]. apply elem_of_app. by left.
Qed.

Lemma produced_app_r (tr1 tr2 : list Event) (r : Result) (t : Task) :
  produced heap tr2 r t -> produced heap (tr1 ++ tr2) r t.
Proof.
  intros (pr & i & Hin & Hid & ->). exists pr, i.
  split; [|done]. apply elem_of_app. by right.
Qed.

(** *** The immediate lane *)

Lemma runImmediate_cons (t : Task) (rest : list Task) (acc : list Result)
    (w : World) :
  runImmediate heap (t :: rest) acc w
  = match publish (heap (adapter t)) (content t) w with
    | (Return pr, w1) =>
        match adapter_id (heap (adapter t)) with
        | Return i =>
            let '(r, w2, tr2) :=
              runImmediate heap rest (acc ++ [mkResult pr t i]) w1 in
            (r, w2, Publish (adapter t) (content t) (Return pr) :: tr2)
        | Throw e =>
            (Throw e, w1, [Publish (adapter t) (content t) (Return pr)])
        end
    | (Throw e, w1) =>
        (Throw e, w1, [Publish (adapter t) (content t) (Throw e)])
    end.
Proof.
  simpl. unfold bind, await_publish, get_id.
  destruct (publish (heap (adapter t)) (content t) w) as [[pr|e] w1]; [|done].
  destruct (adapter_id (heap (adapter t))) as [i|e]; [|done].
  by destruct (runImmediate heap rest (acc ++ [mkResult pr t i]) w1)
    as [[r w2] tr2].
Qed.

Lemma runImmediate_returns (im : list Task) (acc rs : list Result)
    (w w' : World) (tr : list Event) :
  runImmediate heap im acc w = (Return rs, w', tr) ->
  exists rs',
    rs = acc ++ rs'
    /\ Forall2 (produced heap tr) rs' im
    /\ publish_calls tr = call_of <$> im
    /\ verify_calls tr = []
    /\ publishes_returned tr.
Proof.
  revert acc w tr. induction im as [|t rest IH]; intros acc w tr.
  - intros [= <- <- <-]. exists []. rewrite app_nil_r.
    repeat split; [constructor|]. intros a c e Hin. by apply elem_of_nil in Hin.
  - rewrite runImmediate_cons.
    destruct (publish (heap (adapter t)) (content t) w) as [[pr|e] w1];
      [|done].
    destruct (adapter_id (heap (adapter t))) as [i|e] eqn:Hid; [|done].
    destruct (runImmediate heap rest (acc ++ [mkResult pr t i]) w1)
      as [[r w2] tr2] eqn:Hrest.
    intros [= -> -> <-].
    destruct (IH _ _ _ Hrest) as (rs' & -> & Hall & Hcalls & Hver & Hret).
    exists (mkResult pr t i :: rs'). rewrite <- app_assoc.
    split; [done|]. split; [|split; [|split]].
    + constructor.
      * exists pr, i. split; [apply list_elem_of_here | done].
      * eapply Forall2_impl; [exact Hall|]. intros r t' Hp.
        by apply (produced_app_r [_]).
    + simpl. by rewrite Hcalls.
    + done.
    + intros a c e Hin. apply elem_of_cons in Hin as [[=] | Hin].
      by apply Hret in Hin.
Qed.

Lemma runImmediate_throws (im : list Task) (acc : list Result)
    (w w' : World) (tr : list Event) (e : JsError) :
  runImmediate heap im acc w = (Throw e, w', tr) ->
  exists k t,
    im !! k = Some t
    /\ publish_calls tr = call_of <$> take (S k) im
    /\ verify_calls tr = []
    /\ (Publish (adapter t) (content t) (Throw e) ∈ tr
        \/ adapter_id (heap (adapter t)) = Throw e).
Proof.
  revert acc w tr. induction im as [|t rest IH]; intros acc w tr; [done|].
  rewrite runImmediate_cons.
  destruct (publish (heap (adapter t)) (content t) w) as [[pr|e'] w1].
  - destruct (adapter_id (heap (adapter t))) as [i|e'] eqn:Hid.
    + destruct (runImmediate heap rest (acc ++ [mkResult pr t i]) w1)
        as [[r w2] tr2] eqn:Hrest.
      intros [= -> -> <-].
      destruct (IH _ _ _ Hrest) as (k & t' & Hk & Hcalls & Hver & Hwhy).
      exists (S k), t'. split; [done|]. split; [|split; [done|]].
      * simpl. by rewrite Hcalls.
      * destruct Hwhy as [Hin | Hid']; [left | by right].
        by apply list_elem_of_further.
    + intros [= -> -> <-]. exists 0%nat, t.
      split; [done|]. split; [done|]. split; [done|]. by right.
  - intros [= -> -> <-]. exists 0%nat, t.
    split; [done|]. split; [done|]. split; [done|]. left.
    apply list_elem_of_here.
Qed.
(** *** The deferred lane *)

Lemma timerCallback_eq (t : Task) (w : World) :
  timerCallback heap t w
  = match publish (heap (adapter t)) (content t) w with
    | (Return pr, w1) =>
        match adapter_id (heap (adapter t)) with
        | Return i =>
            (Return (mkResult pr t i), w1,
             [Publish (adapter t) (content t) (Return pr)])
        | Throw e =>
            (Throw e, w1, [Publish (adapter t) (content t) (Return pr)])
        end
    | (Throw e, w1) =>
        (Throw e, w1, [Publish (adapter t) (content t) (Throw e)])
    end.
Proof.
  unfold timerCallback, bind, await_publish, get_id, ret.
  destruct (publish (heap (adapter t)) (content t) w) as [[pr|e] w1]; [|done].
  by destruct (adapter_id (heap (adapter t))) as [i|e].
Qed.

Lemma fireTimers_spec (de : list Task) (order : list nat)
    (slots slots' : list (option Result)) (w w' : World) (tr : list Event) :
  fireTimers heap de order slots w = (slots', w', tr) ->
  length slots' = length slots
  /\ publish_calls tr = call_of <$> fired de order
  /\ verify_calls tr = []
  /\ (forall i, resolved slots i -> resolved slots' i)
  /\ (forall i r, slots' !! i = Some (Some r) ->
        slots !! i = Some (Some r)
        \/ exists t, de !! i = Some t /\ produced heap tr r t)
  /\ (publishes_returned tr -> ids_implemented heap de ->
      forall i, i ∈ order -> (i < length slots)%nat -> is_Some (de !! i) ->
                resolved slots' i).
Proof.
  revert slots w tr. induction order as [|i rest IH]; intros slots w tr.
  - intros [= <- <- <-]. repeat split; auto.
    intros _ _ i Hin. by apply elem_of_nil in Hin.
  - simpl. unfold fired. simpl. fold (fired de rest).
    destruct (de !! i) as [t|] eqn:Ht.
    + rewrite timerCallback_eq.
      destruct (publish (heap (adapter t)) (content t) w) as [[pr|e] w1] eqn:Hp.
      * destruct (adapter_id (heap (adapter t))) as [id_t|e] eqn:Hid.
        -- destruct (fireTimers heap de rest
                       (<[i:=Some (mkResult pr t id_t)]> slots) w1)
             as [[s2 w2] tr2] eqn:Hrest.
           intros [= <- <- <-].
           destruct (IH _ _ _ Hrest) as (Hlen & Hcalls & Hver & Hmono & Hfrom & Hall).
           rewrite length_insert in Hlen.
           split; [done|]. split; [simpl; by rewrite Hcalls|].
           split; [done|]. split; [|split].
           ++ intros j [r Hj]. apply Hmono.
              destruct (decide (i = j)) as [<-|Hne].
              ** exists (mkResult pr t id_t). apply list_lookup_insert_eq.
                 by eapply lookup_lt_Some.
              ** exists r. by rewrite list_lookup_insert_ne.
           ++ intros j r Hj. destruct (Hfrom j r Hj) as [Hold | (t' & Ht' & Hpr)].
              ** destruct (decide (i = j)) as [<-|Hne].
                 --- destruct (decide (i < length slots)%nat) as [Hlt|Hge].
                     +++ rewrite list_lookup_insert_eq in Hold by done.
                         injection Hold as <-. right. exists t.
                         split; [done|]. exists pr, id_t.
                         split; [apply list_elem_of_here | done].
                     +++ rewrite list_insert_ge in Hold by lia. by left.
                 --- rewrite list_lookup_insert_ne in Hold by done. by left.
              ** right. exists t'. split; [done|].
                 by apply (produced_app_r [_]).
           ++ intros Hret Hids j Hj Hlt Hsome.
              assert (Hret2 : publishes_returned tr2).
              { by apply (publishes_returned_app [_] tr2) in Hret as [_ ?]. }
              apply elem_of_cons in Hj as [-> | Hj].
              ** apply Hmono. exists (mkResult pr t id_t).
                 by apply list_lookup_insert_eq.
              ** apply (Hall Hret2 Hids j Hj); [by rewrite length_insert | done].
        -- destruct (fireTimers heap de rest slots w1)
             as [[s2 w2] tr2] eqn:Hrest.
           intros [= <- <- <-].
           destruct (IH _ _ _ Hrest) as (Hlen & Hcalls & Hver & Hmono & Hfrom & Hall).
           split; [done|]. split; [simpl; by rewrite Hcalls|].
           split; [done|]. split; [done|]. split.
           ++ intros j r Hj. destruct (Hfrom j r Hj) as [Hold | (t' & Ht' & Hpr)];
                [by left|]. right. exists t'. split; [done|].
              by apply (produced_app_r [_; _]).
           ++ intros _ Hids. exfalso.
              destruct (Hids t) as [i' Hi']; [by eapply list_elem_of_lookup_2|].
              congruence.
      * destruct (fireTimers heap de rest slots w1)
          as [[s2 w2] tr2] eqn:Hrest.
        intros [= <- <- <-].
        destruct (IH _ _ _ Hrest) as (Hlen & Hcalls & Hver & Hmono & Hfrom & Hall).
        split; [done|]. split; [simpl; by rewrite Hcalls|].
        split; [done|]. split; [done|]. split.
        -- intros j r Hj. destruct (Hfrom j r Hj) as [Hold | (t' & Ht' & Hpr)];
             [by left|]. right. exists t'. split; [done|].
           by apply (produced_app_r [_; _]).
        -- intros Hret. exfalso. apply (Hret (adapter t) (content t) e).
           apply list_elem_of_here.
    + intros Hrest.
      destruct (IH _ _ _ Hrest) as (Hlen & Hcalls & Hver & Hmono & Hfrom & Hall).
      repeat (split; [done|]).
      intros Hret Hids j Hj Hlt Hsome.
      apply elem_of_cons in Hj as [-> | Hj].
      * rewrite Ht in Hsome. by destruct Hsome.
      * by apply Hall.
Qed.
(** *** The two lanes together *)

Lemma runLanes_eq (tasks : list Task) (w : World) :
  runLanes heap fire_order tasks w
  = match runImmediate heap (immediate_lane tasks) [] w with
    | (Throw e, w1, tr1) => (Rejected e, w1, tr1)
    | (Return results, w1, tr1) =>
        let '(slots, w2, tr2) :=
          fireTimers heap (deferred_lane tasks)
            (fire_order (deferred_lane tasks))
            (replicate (length (deferred_lane tasks)) None) w1 in
        match mapM (M := option) (fun slot => slot) slots with
        | Some delayedResults =>
            (Fulfilled (results ++ delayedResults), w2, tr1 ++ tr2)
        | None => (Pending, w2, tr1 ++ tr2)
        end
    end.
Proof. reflexivity. Qed.

Lemma runLanes_calls (tasks : list Task) (w w' : World)
    (p : Settlement (list Result)) (tr : list Event) :
  runLanes heap fire_order tasks w = (p, w', tr) ->
  verify_calls tr = []
  /\ match p with
     | Rejected e =>
         exists k t,
           immediate_lane tasks !! k = Some t
           /\ publish_calls tr = call_of <$> take (S k) (immediate_lane tasks)
           /\ (Publish (adapter t) (content t) (Throw e) ∈ tr
               \/ adapter_id (heap (adapter t)) = Throw e)
     | _ =>
         publish_calls tr
         = call_of <$> (immediate_lane tasks
                        ++ fired (deferred_lane tasks)
                             (fire_order (deferred_lane tasks)))
     end.
Proof.
  rewrite runLanes_eq.
  destruct (runImmediate heap (immediate_lane tasks) [] w)
    as [[[rs|e] w1] tr1] eqn:Him.
  - apply runImmediate_returns in Him as (rs' & _ & _ & Hc1 & Hv1 & _).
    destruct (fireTimers heap (deferred_lane tasks) _ _ w1)
      as [[slots w2] tr2] eqn:Hde.
    apply fireTimers_spec in Hde as (_ & Hc2 & Hv2 & _).
    assert (Hc : publish_calls (tr1 ++ tr2)
                 = call_of <$> (immediate_lane tasks
                                ++ fired (deferred_lane tasks)
                                     (fire_order (deferred_lane tasks)))).
    { by rewrite publish_calls_app, Hc1, Hc2, fmap_app. }
    assert (Hv : verify_calls (tr1 ++ tr2) = []).
    { by rewrite verify_calls_app, Hv1, Hv2. }
    destruct (mapM _ slots); intros [= <- <- <-]; by split.
  - apply runImmediate_throws in Him as (k & t & Hk & Hc & Hv & Hwhy).
    intros [= <- <- <-]. split; [done|]. by exists k, t.
Qed.

Lemma runLanes_fulfilled (tasks : list Task) (w w' : World)
    (rs : list Result) (tr : list Event) :
  runLanes heap fire_order tasks w = (Fulfilled rs, w', tr) ->
  Forall2 (produced heap tr) rs (immediate_lane tasks ++ deferred_lane tasks).
Proof.
  rewrite runLanes_eq.
  destruct (runImmediate heap (immediate_lane tasks) [] w)
    as [[[rs1|e] w1] tr1] eqn:Him; [|done].
  apply runImmediate_returns in Him as (rs' & -> & Hall1 & _).
  destruct (fireTimers heap (deferred_lane tasks) _ _ w1)
    as [[slots w2] tr2] eqn:Hde.
  apply fireTimers_spec in Hde as (Hlen & _ & _ & _ & Hfrom & _).
  rewrite length_replicate in Hlen.
  destruct (mapM _ slots) as [drs|] eqn:Hm; [|done].
  intros [= <- <- <-]. simpl. apply Forall2_app.
  - eapply Forall2_impl; [exact Hall1|]. intros r t. apply produced_app_l.
  - apply mapM_Some in Hm.
    apply Forall2_same_length_lookup_2.
    + apply Forall2_length in Hm. lia.
    + intros i r t Hr Ht.
      assert (Hs : slots !! i = Some (Some r)).
      { destruct (Forall2_lookup_r _ _ _ _ _ Hm Hr) as (s & Hs & ->). done. }
      destruct (Hfrom i r Hs) as [Hold | (t' & Ht' & Hpr)].
      * apply lookup_replicate in Hold as [[=] _].
      * rewrite Ht in Ht'. injection Ht' as <-. by apply produced_app_r.
Qed.

Lemma runLanes_settles (tasks : list Task) (w w' : World)
    (p : Settlement (list Result)) (tr : list Event) :
  fire_order (deferred_lane tasks)
    ≡ₚ seq 0 (length (deferred_lane tasks)) ->
  ids_implemented heap tasks ->
  runLanes heap fire_order tasks w = (p, w', tr) ->
  publishes_returned tr ->
  exists rs, p = Fulfilled rs.
Proof.
  intros Hperm Hids. rewrite runLanes_eq.
  destruct (runImmediate heap (immediate_lane tasks) [] w)
    as [[[rs1|e] w1] tr1] eqn:Him.
  - destruct (fireTimers heap (deferred_lane tasks) _ _ w1)
      as [[slots w2] tr2] eqn:Hde.
    apply fireTimers_spec in Hde as (Hlen & _ & _ & _ & _ & Hall).
    rewrite length_replicate in Hlen.
    destruct (mapM _ slots) as [drs|] eqn:Hm; [intros [= <- <- <-]; eauto|].
    intros [= <- <- <-] Hret. exfalso.
    apply publishes_returned_app in Hret as [_ Hret].
    assert (Hsome : is_Some (mapM (M := option) (fun slot => slot) slots)).
    { apply mapM_is_Some, Forall_lookup_2. intros i s Hi.
      assert (Hlt : (i < length (deferred_lane tasks))%nat).
      { rewrite <- Hlen. by eapply lookup_lt_Some. }
      destruct (Hall Hret) with (i := i) as [r Hr].
      - intros t Ht. apply Hids.
        unfold deferred_lane in Ht. by apply list_elem_of_filter in Ht as [_ ?].
      - rewrite Hperm. apply elem_of_seq. lia.
      - by rewrite length_replicate.
      - by apply lookup_lt_is_Some.
      - rewrite Hi in Hr. injection Hr as ->. by eexists. }
    rewrite Hm in Hsome. by destruct Hsome.
  - apply runImmediate_throws in Him as (k & t & Hk & _ & _ & Hwhy).
    intros [= <- <- <-] Hret. exfalso. destruct Hwhy as [Hin | Hid].
    + by apply Hret in Hin.
    + destruct (Hids t) as [i Hi]; [|congruence].
      apply list_elem_of_lookup_2 in Hk. unfold immediate_lane in Hk.
      by apply list_elem_of_filter in Hk as [_ ?].
Qed.

Lemma lanes_nonnegative (tasks : list Task) :
  immediate_lane (filter (fun t => 0 <= delayMs t) tasks)
  = immediate_lane tasks
  /\ deferred_lane (filter (fun t => 0 <= delayMs t) tasks)
     = deferred_lane tasks.
Proof.
  unfold immediate_lane, deferred_lane. rewrite !list_filter_filter.
  split; apply list_filter_iff; intros t; lia.
Qed.

Lemma runLanes_nonnegative (tasks : list Task) (w : World) :
  runLanes heap fire_order (filter (fun t => 0 <= delayMs t) tasks) w
  = runLanes heap fire_order tasks w.
Proof.
  rewrite !runLanes_eq.
  by destruct (lanes_nonnegative tasks) as [-> ->].
Qed.
(** *** The verification gate *)

Lemma verifyLoop_cons (t : Task) (rest : list Task)
    (verified : gmap aref bool) (w : World) :
  verifyLoop heap (t :: rest) verified w
  = if bool_decide (is_Some (verified !! adapter t))
    then verifyLoop heap rest verified w
    else
      match verify (heap (adapter t)) w with
      | (Return b, w1) =>
          let '(r, w2, tr2) :=
            verifyLoop heap rest (<[adapter t := true]> verified) w1 in
          (r, w2, Verify (adapter t) (Return b) :: tr2)
      | (Throw e, w1) =>
          match adapter_id (heap (adapter t)) with
          | Return i =>
              let '(r, w2, tr2) :=
                verifyLoop heap rest (<[adapter t := false]> verified) w1 in
              (r, w2, Verify (adapter t) (Throw e)
                        :: Warn (warn_failed_verify i e) :: tr2)
          | Throw e' => (Throw e', w1, [Verify (adapter t) (Throw e)])
          end
      end.
Proof.
  simpl. case_bool_decide; [done|].
  unfold bind, try_catch, await_verify, get_id, console_warn, ret.
  destruct (verify (heap (adapter t)) w) as [[b|e] w1]; simpl.
  - by destruct (verifyLoop heap rest (<[adapter t:=true]> verified) w1)
      as [[r w2] tr2].
  - destruct (adapter_id (heap (adapter t))) as [i|e']; [|done]. simpl.
    by destruct (verifyLoop heap rest (<[adapter t:=false]> verified) w1)
      as [[r w2] tr2].
Qed.

Lemma verifyLoop_spec (tasks : list Task) (verified : gmap aref bool)
    (w w' : World) (c : completion (gmap aref bool)) (tr : list Event) :
  ids_implemented heap tasks ->
  verifyLoop heap tasks verified w = (c, w', tr) ->
  exists verified',
    c = Return verified'
    /\ publish_calls tr = []
    /\ (forall a,
          times_verified a tr
          = if bool_decide (a ∈ adapter <$> tasks /\ verified !! a = None)
            then 1%nat else 0%nat)
    /\ (forall a b, verified !! a = Some b -> verified' !! a = Some b)
    /\ (forall a, verified !! a = None ->
                  (verified' !! a = Some false <-> a ∈ failed_verify tr)).
Proof.
  revert verified w tr.
  induction tasks as [|t rest IH]; intros verified w tr Hids.
  - intros [= <- <- <-]. exists verified.
    split; [done|]. split; [done|]. split; [|split].
    + intros a. rewrite bool_decide_eq_false_2; [done|].
      intros [Hin _]. by apply elem_of_nil in Hin.
    + done.
    + intros a Ha. split; [congruence|].
      intros Hin. by apply elem_of_nil in Hin.
  - assert (Hids' : ids_implemented heap rest).
    { intros t' Ht'. apply Hids. by apply list_elem_of_further. }
    rewrite verifyLoop_cons. case_bool_decide as Hhas.
    + intros Hrest.
      destruct (IH _ _ _ Hids' Hrest) as (v' & -> & Hp & Hcount & Hkeep & Hfail).
      exists v'. repeat (split; [done|]). split; [|done].
      intros a. rewrite Hcount.
      apply (f_equal (fun b : bool => if b then 1%nat else 0%nat)).
      apply bool_decide_ext.
      rewrite fmap_cons, elem_of_cons. split; [tauto|].
      intros [[-> | Hin] Hnone]; [|done].
      rewrite Hnone in Hhas. by destruct Hhas.
    + assert (Hnew : verified !! adapter t = None).
      { destruct (verified !! adapter t); [|done]. exfalso. eauto. }
      assert (Hstep : forall (b : bool) tr2 a,
        times_verified a tr2
        = (if bool_decide (a ∈ adapter <$> rest
                           /\ <[adapter t:=b]> verified !! a = None)
           then 1%nat else 0%nat) ->
        ((if bool_decide (a = adapter t) then 1 else 0)
         + times_verified a tr2)%nat
        = if bool_decide (a ∈ adapter <$> t :: rest /\ verified !! a = None)
          then 1%nat else 0%nat).
      { intros b tr2 a ->. rewrite fmap_cons.
        destruct (decide (a = adapter t)) as [->|Hne].
        - rewrite lookup_insert_eq.
          rewrite (bool_decide_eq_true_2 (adapter t = adapter t)) by done.
          rewrite bool_decide_eq_false_2 by (by intros [_ ?]).
          rewrite bool_decide_eq_true_2; [done|].
          split; [apply list_elem_of_here | done].
        - rewrite lookup_insert_ne by done.
          rewrite (bool_decide_eq_false_2 (a = adapter t)) by done.
          simpl.
          apply (f_equal (fun b : bool => if b then 1%nat else 0%nat)).
          apply bool_decide_ext. rewrite elem_of_cons. tauto. }
      destruct (verify (heap (adapter t)) w) as [[b|e] w1].
      * destruct (verifyLoop heap rest (<[adapter t:=true]> verified) w1)
          as [[r w2] tr2] eqn:Hrest.
        intros [= <- <- <-].
        destruct (IH _ _ _ Hids' Hrest) as (v' & -> & Hp & Hcount & Hkeep & Hfail).
        exists v'. split; [done|]. split; [done|]. split; [|split].
        -- intros a. rewrite <- (Hstep true tr2 a (Hcount a)).
           unfold times_verified. simpl. rewrite filter_cons.
           destruct (decide (a = adapter t)) as [->|Hne].
           ++ by rewrite bool_decide_eq_true_2.
           ++ by rewrite bool_decide_eq_false_2.
        -- intros a b' Ha. apply Hkeep. rewrite lookup_insert_ne; [done|].
           intros <-. congruence.
        -- intros a Ha. simpl. destruct (decide (a = adapter t)) as [->|Hne].
           ++ rewrite (Hkeep (adapter t) true) by apply lookup_insert_eq.
              split; [discriminate|]. intros Hin.
              apply failed_verify_sub in Hin.
              pose proof (Hcount (adapter t)) as Hc.
              rewrite lookup_insert_eq in Hc.
              rewrite bool_decide_eq_false_2 in Hc by (by intros [_ ?]).
              unfold times_verified in Hc.
              apply length_zero_iff_nil in Hc.
              assert (adapter t ∈ filter (eq (adapter t)) (verify_calls tr2))
                as Hin' by (by apply list_elem_of_filter).
              rewrite Hc in Hin'. by apply elem_of_nil in Hin'.
           ++ apply Hfail. by rewrite lookup_insert_ne.
      * destruct (Hids t) as [i Hi]; [apply list_elem_of_here|]. rewrite Hi.
        destruct (verifyLoop heap rest (<[adapter t:=false]> verified) w1)
          as [[r w2] tr2] eqn:Hrest.
        intros [= <- <- <-].
        destruct (IH _ _ _ Hids' Hrest) as (v' & -> & Hp & Hcount & Hkeep & Hfail).
        exists v'. split; [done|]. split; [done|]. split; [|split].
        -- intros a. rewrite <- (Hstep false tr2 a (Hcount a)).
           unfold times_verified. simpl. rewrite filter_cons.
           destruct (decide (a = adapter t)) as [->|Hne].
           ++ by rewrite bool_decide_eq_true_2.
           ++ by rewrite bool_decide_eq_false_2.
        -- intros a b' Ha. apply Hkeep. rewrite lookup_insert_ne; [done|].
           intros <-. congruence.
        -- intros a Ha. simpl. rewrite elem_of_cons.
           destruct (decide (a = adapter t)) as [->|Hne].
           ++ rewrite (Hkeep (adapter t) false) by apply lookup_insert_eq.
              split; auto.
           ++ rewrite Hfail by (by rewrite lookup_insert_ne). tauto.
Qed.

Lemma failedAdapters_elem (verified : gmap aref bool) (a : aref) :
  a ∈ failedAdapters verified <-> verified !! a = Some false.
Proof.
  unfold failedAdapters. rewrite elem_of_dom. split.
  - intros [b Hb]. apply map_lookup_filter_Some in Hb as [Hb Hf].
    simpl in Hf. by subst.
  - intros Hb. exists false. by apply map_lookup_filter_Some.
Qed.

Lemma verifyGate_spec (tasks : list Task) (w w' : World)
    (c : completion (list Task)) (tr : list Event) :
  ids_implemented heap tasks ->
  verifyGate heap tasks {| opt_verify := true |} w = (c, w', tr) ->
  c = Return (filter (fun t => adapter t ∉ failed_verify tr) tasks)
  /\ publish_calls tr = []
  /\ (forall a, a ∈ adapter <$> tasks -> times_verified a tr = 1%nat).
Proof.
  intros Hids. unfold verifyGate, bind. simpl.
  destruct (verifyLoop heap tasks ∅ w) as [[c1 w1] tr1] eqn:Hloop.
  destruct (verifyLoop_spec _ _ _ _ _ _ Hids Hloop)
    as (v' & -> & Hp & Hcount & _ & Hfail).
  assert (Hset : forall a, a ∈ failedAdapters v' <-> a ∈ failed_verify tr1).
  { intros a. rewrite failedAdapters_elem. by apply Hfail. }
  assert (Hcount' : forall a, a ∈ adapter <$> tasks ->
                              times_verified a tr1 = 1%nat).
  { intros a Ha. rewrite Hcount. by rewrite bool_decide_eq_true_2. }
  destruct (0 <? size (failedAdapters v'))%nat eqn:Hsize;
    unfold ret; intros [= <- <- <-]; rewrite app_nil_r;
    (split; [|by split]); f_equal.
  - apply list_filter_iff. intros t. by rewrite Hset.
  - apply Nat.ltb_ge in Hsize.
    assert (Hempty : failedAdapters v' = ∅).
    { apply leibniz_equiv, size_empty_iff. lia. }
    symmetry. apply filter_all. intros t _. rewrite <- Hset, Hempty.
    apply not_elem_of_empty.
Qed.
Lemma verifyLoop_no_publish (tasks : list Task) (verified : gmap aref bool)
    (w w' : World) (c : completion (gmap aref bool)) (tr : list Event) :
  verifyLoop heap tasks verified w = (c, w', tr) -> publish_calls tr = [].
Proof.
  revert verified w tr. induction tasks as [|t rest IH]; intros verified w tr.
  - by intros [= <- <- <-].
  - rewrite verifyLoop_cons. case_bool_decide; [apply IH|].
    destruct (verify (heap (adapter t)) w) as [[b|e] w1].
    + destruct (verifyLoop heap rest (<[adapter t:=true]> verified) w1)
        as [[r w2] tr2] eqn:Hrest.
      intros [= <- <- <-]. simpl. by eapply IH.
    + destruct (adapter_id (heap (adapter t))) as [i|e'].
      * destruct (verifyLoop heap rest (<[adapter t:=false]> verified) w1)
          as [[r w2] tr2] eqn:Hrest.
        intros [= <- <- <-]. simpl. by eapply IH.
      * by intros [= <- <- <-].
Qed.

Lemma verifyGate_sub (tasks : list Task) (opts : Opts) (w w' : World)
    (c : completion (list Task)) (tr : list Event) :
  verifyGate heap tasks opts w = (c, w', tr) ->
  publish_calls tr = []
  /\ forall tasks', c = Return tasks' -> tasks' ⊆ tasks.
Proof.
  unfold verifyGate. destruct (opt_verify opts).
  - unfold bind.
    destruct (verifyLoop heap tasks ∅ w) as [[[v|e] w1] tr1] eqn:Hloop.
    + apply verifyLoop_no_publish in Hloop.
      destruct (0 <? size (failedAdapters v))%nat; unfold ret;
        intros [= <- <- <-]; rewrite app_nil_r; (split; [done|]);
        intros tasks' [= <-]; [|done].
      intros t Ht. by apply list_elem_of_filter in Ht as [_ ?].
    + apply verifyLoop_no_publish in Hloop.
      intros [= <- <- <-]. split; [done|]. by intros tasks' [=].
  - unfold ret. intros [= <- <- <-]. split; [done|]. by intros tasks' [= <-].
Qed.

Lemma verify_calls_nil_failed (tr : list Event) :
  verify_calls tr = [] -> failed_verify tr = [].
Proof.
  intros Hnil. apply elem_of_nil_inv. intros a Ha.
  apply failed_verify_sub in Ha. rewrite Hnil in Ha.
  by apply elem_of_nil in Ha.
Qed.

Lemma fired_sub (de : list Task) (order : list nat) :
  fired de order ⊆ de.
Proof.
  intros t Ht. unfold fired in Ht.
  apply list_elem_of_omap in Ht as (i & _ & Hi).
  by eapply list_elem_of_lookup_2.
Qed.

Lemma runLanes_calls_sub (tasks : list Task) (w w' : World)
    (p : Settlement (list Result)) (tr : list Event) (a : aref) (c : Content) :
  runLanes heap fire_order tasks w = (p, w', tr) ->
  (a, c) ∈ publish_calls tr ->
  exists t, t ∈ tasks /\ 0 <= delayMs t /\ call_of t = (a, c).
Proof.
  intros Hrun Hin.
  assert (Hlanes : exists t, t ∈ immediate_lane tasks ++ deferred_lane tasks
                             /\ call_of t = (a, c)).
  { apply runLanes_calls in Hrun as [_ Hcalls]. destruct p as [rs|e|].
    - rewrite Hcalls in Hin.
      apply list_elem_of_fmap in Hin as (t & Heq & Ht). exists t.
      split; [|done]. apply elem_of_app in Ht as [Ht | Ht];
        apply elem_of_app; [by left | right]. by eapply fired_sub.
    - destruct Hcalls as (k & t0 & _ & Hcalls & _). rewrite Hcalls in Hin.
      apply list_elem_of_fmap in Hin as (t & Heq & Ht). exists t.
      split; [|done]. apply elem_of_app. left.
      apply elem_of_take in Ht as (i & Hi & _).
      by eapply list_elem_of_lookup_2.
    - rewrite Hcalls in Hin.
      apply list_elem_of_fmap in Hin as (t & Heq & Ht). exists t.
      split; [|done]. apply elem_of_app in Ht as [Ht | Ht];
        apply elem_of_app; [by left | right]. by eapply fired_sub. }
  destruct Hlanes as (t & Ht & Hcall). exists t.
  unfold immediate_lane, deferred_lane in Ht.
  apply elem_of_app in Ht as [Ht | Ht];
    apply list_elem_of_filter in Ht as [Hd Ht]; repeat split; auto; lia.
Qed.

(** *** The gate and the lanes together *)

Lemma executeTasks_eq (tasks : list Task) (opts : Opts) (w : World) :
  executeTasks heap fire_order tasks opts w
  = match verifyGate heap tasks opts w with
    | (Throw e, w1, tr1) => (Rejected e, w1, tr1)
    | (Return tasks', w1, tr1) =>
        let '(p, w2, tr2) := runLanes heap fire_order tasks' w1 in
        (p, w2, tr1 ++ tr2)
    end.
Proof. reflexivity. Qed.

Lemma executeTasks_spec (tasks : list Task) (opts : Opts) (w w' : World)
    (p : Settlement (list Result)) (tr : list Event) :
  ids_implemented heap tasks ->
  executeTasks heap fire_order tasks opts w = (p, w', tr) ->
  exists tr1 tr2 w1,
    tr = tr1 ++ tr2
    /\ runLanes heap fire_order (survivors opts tr tasks) w1 = (p, w', tr2)
    /\ publish_calls tr1 = []
    /\ verify_calls tr2 = []
    /\ (opt_verify opts = true ->
        forall a, a ∈ adapter <$> tasks -> times_verified a tr1 = 1%nat)
    /\ (opt_verify opts = false -> tr1 = [] /\ w1 = w).
Proof.
  intros Hids. rewrite executeTasks_eq. unfold survivors.
  destruct opts as [[|]]; simpl.
  - destruct (verifyGate heap tasks {| opt_verify := true |} w)
      as [[c w1] tr1] eqn:Hgate.
    apply (verifyGate_spec _ _ _ _ _ Hids) in Hgate as (-> & Hp & Hcount).
    destruct (runLanes heap fire_order _ w1) as [[p2 w2] tr2] eqn:Hlanes.
    intros [= <- <- <-]. exists tr1, tr2, w1.
    pose proof (runLanes_calls _ _ _ _ _ Hlanes) as [Hv _].
    rewrite failed_verify_app, (verify_calls_nil_failed tr2 Hv), app_nil_r.
    do 4 (split; [done|]). split; [done | discriminate].
  - unfold verifyGate, ret. simpl.
    destruct (runLanes heap fire_order tasks w) as [[p2 w2] tr2] eqn:Hlanes.
    intros [= <- <- <-]. exists [], tr2, w.
    pose proof (runLanes_calls _ _ _ _ _ Hlanes) as [Hv _].
    do 4 (split; [done|]). split; [discriminate | done].
Qed.
End DispatcherFacts.

Lemma insert_by_perm (key : nat -> Z) (i : nat) (l : list nat) :
  insert_by key i l ≡ₚ i :: l.
Proof.
  induction l as [|j l IH]; [done|]. simpl.
  destruct (key i <=? key j); [done|]. rewrite IH. apply Permutation_swap.
Qed.

Lemma expiry_order_perm (delayed : list Task) :
  expiry_order delayed ≡ₚ seq 0 (length delayed).
Proof.
  unfold expiry_order. generalize (seq 0 (length delayed)).
  intros l. induction l as [|i l IH]; [done|]. simpl.
  by rewrite insert_by_perm, IH.
Qed.

Lemma ids_implemented_sub {World : Type} (heap : aref -> Adapter World)
    (tasks tasks' : list Task) :
  tasks' ⊆ tasks -> ids_implemented heap tasks -> ids_implemented heap tasks'.
Proof. intros Hsub Hids t Ht. by apply Hids, Hsub. Qed.

Lemma survivors_sub (opts : Opts) (tr : list Event) (tasks : list Task) :
  survivors opts tr tasks ⊆ tasks.
Proof.
  unfold survivors. destruct (opt_verify opts); [|done].
  intros t Ht. by apply list_elem_of_filter in Ht as [_ ?].
Qed.

Lemma demo_ids : ids_implemented demo_heap demo_batch.
Proof.
  intros t Ht. unfold demo_batch in Ht.
  repeat (apply elem_of_cons in Ht as [-> | Ht]; [by eexists|]).
  by apply elem_of_nil in Ht.
Qed.



(** C1. With the gate enabled, [verify()] is called exactly once on every
    adapter the tasks hold, however many tasks hold it. No [publish] call
    is made on an adapter whose [verify()] threw, the results are those of
    the tasks of the other adapters, in their lanes, and an error the
    caller gets was thrown by the [publish] of a task of another adapter,
    never by a [verify()]: the run is the run of the two lanes on the
    tasks of the adapters that passed, and it is fulfilled when no
    [publish] call throws. *)
Theorem executeTasks_verify_gate {World : Type}
    (heap : aref -> Adapter World) (fire_order : list Task -> list nat)
    (tasks : list Task) (w : World) :
  (forall l, fire_order l ≡ₚ seq 0 (length l)) ->
  ids_implemented heap tasks ->
  let '(p, w', tr) :=
    executeTasks heap fire_order tasks {| opt_verify := true |} w in
  let passed := filter (fun t => adapter t ∉ failed_verify tr) tasks in
  (forall a, a ∈ adapter <$> tasks -> times_verified a tr = 1%nat)
  /\ (forall a c, a ∈ failed_verify tr -> (a, c) ∉ publish_calls tr)
  /\ (forall rs, p = Fulfilled rs ->
                 Forall2 (produced heap tr) rs
                   (immediate_lane passed ++ deferred_lane passed))
  /\ (forall e, p = Rejected e ->
                exists t, t ∈ passed
                          /\ Publish (adapter t) (content t) (Throw e) ∈ tr)
  /\ (publishes_returned tr -> exists rs, p = Fulfilled rs)
  /\ (exists tr1 tr2 w1,
        tr = tr1 ++ tr2 /\ publish_calls tr1 = []
        /\ runLanes heap fire_order passed w1 = (p, w', tr2)).
Proof.
  intros Hperm Hids.
  destruct (executeTasks heap fire_order tasks {| opt_verify := true |} w)
    as [[p w'] tr] eqn:Hrun.
  destruct (executeTasks_spec _ _ _ _ _ _ _ _ Hids Hrun)
    as (tr1 & tr2 & w1 & Htr & Hrun2 & Hp1 & Hv2 & Hcount & _).
  unfold survivors in Hrun2. simpl in *.
  set (passed := filter (fun t => adapter t ∉ failed_verify tr) tasks) in *.
  assert (Hsub : passed ⊆ tasks).
  { intros t Ht. by apply list_elem_of_filter in Ht as [_ ?]. }
  pose proof (ids_implemented_sub heap tasks passed Hsub Hids) as Hids'.
  split; [|split; [|split; [|split; [|split]]]].
  - intros a Ha. rewrite Htr, times_verified_app, (Hcount eq_refl a Ha).
    by rewrite (times_verified_none a tr2 Hv2).
  - intros a c Hfail Hin.
    assert (Hin2 : (a, c) ∈ publish_calls tr2).
    { by rewrite Htr, publish_calls_app, Hp1 in Hin. }
    destruct (runLanes_calls_sub _ _ _ _ _ _ _ _ _ Hrun2 Hin2)
      as (t & Ht & _ & [= <- <-]).
    by apply list_elem_of_filter in Ht as [Hok _].
  - intros rs ->. apply runLanes_fulfilled in Hrun2.
    eapply Forall2_impl; [exact Hrun2|]. intros r t. rewrite Htr.
    apply produced_app_r.
  - intros e ->.
    pose proof (runLanes_calls _ _ _ _ _ _ _ Hrun2) as [_ (k & t & Hk & _ & Hwhy)].
    apply list_elem_of_lookup_2 in Hk. unfold immediate_lane in Hk.
    apply list_elem_of_filter in Hk as [_ Hk].
    exists t. split; [done|]. destruct Hwhy as [Hin | Hid].
    + rewrite Htr. apply elem_of_app. by right.
    + destruct (Hids' t Hk) as [i Hi]. congruence.
  - intros Hret.
    eapply (runLanes_settles heap fire_order);
      [apply Hperm | exact Hids' | exact Hrun2 |].
    rewrite Htr in Hret. by apply publishes_returned_app in Hret as [_ ?].
  - by exists tr1, tr2, w1.
Qed.

Lemma executeTasks_verify_gate_witness :
  ids_implemented demo_heap demo_batch
  /\ let '(p, w', tr) :=
       executeTasks demo_heap expiry_order demo_batch
         {| opt_verify := true |} demo_world in
     failed_verify tr = [2%positive]
     /\ times_verified 1 tr = 1%nat
     /\ times_verified 2 tr = 1%nat
     /\ (forall c, (2%positive, c) ∉ publish_calls tr)
     /\ exists rs, p = Fulfilled rs.
Proof.
  split; [exact demo_ids|].
  pose proof (executeTasks_verify_gate demo_heap expiry_order demo_batch
                demo_world expiry_order_perm demo_ids) as H.
  destruct (executeTasks demo_heap expiry_order demo_batch
              {| opt_verify := true |} demo_world) as [[p w'] tr] eqn:Hrun.
  destruct H as (Honce & Hnone & _ & _ & _ & _).
  assert (Hp : p = (executeTasks demo_heap expiry_order demo_batch
                      {| opt_verify := true |} demo_world).1.1)
    by (by rewrite Hrun).
  assert (Htr : tr = (executeTasks demo_heap expiry_order demo_batch
                        {| opt_verify := true |} demo_world).2)
    by (by rewrite Hrun).
  assert (Hfail : failed_verify tr = [2%positive]).
  { rewrite Htr. by vm_compute. }
  split; [done|]. split; [|split; [|split]].
  - apply Honce. apply list_elem_of_here.
  - apply Honce. apply list_elem_of_further, list_elem_of_here.
  - intros c. apply Hnone. rewrite Hfail. apply list_elem_of_here.
  - rewrite Hp. vm_compute. eauto.
Defined.

Lemma fireTimers_no_tasks {World : Type} (heap : aref -> Adapter World)
    (order : list nat) (slots : list (option Result)) (w : World) :
  fireTimers heap [] order slots w = (slots, w, []).
Proof.
  induction order as [|i rest IH]; simpl; [done|].
  rewrite ?lookup_nil. apply IH.
Qed.

Lemma runLanes_no_tasks {World : Type} (heap : aref -> Adapter World)
    (fire_order : list Task -> list nat) (w : World) :
  runLanes heap fire_order [] w = (Fulfilled [], w, []).
Proof.
  rewrite runLanes_eq. unfold immediate_lane, deferred_lane.
  rewrite !filter_nil. simpl. unfold ret.
  by rewrite fireTimers_no_tasks.
Qed.

(** C10. A negative number is a delay [parseDelay] returns as it is, so
    [evaluateRules] makes a task with a negative [delayMs] out of it. Such
    a task is in neither lane: the lanes run as they do without it, no
    [publish] call and no result of a run comes from a task with a
    negative delay, and a batch of such tasks is fulfilled with no result,
    no call and no error. *)
Theorem executeTasks_drops_negative {World : Type}
    (heap : aref -> Adapter World) (fire_order : list Task -> list nat) :
  (forall now n, parseDelay now (DelayNumber n) = Return n)
  /\ (forall now content adapters rname name a n,
        valid (validate content) = true ->
        adapters !! name = Some a ->
        evaluateRules now content
          [{| rule_name := rname; rule_if := None;
              rule_publish := [{| target_adapter := name;
                                  target_delay := DelayNumber n;
                                  target_channel := None |}] |}] adapters
        = ([], Return [{| adapter := a; content := content; delayMs := n;
                          channel := None; ruleName := rname |}]))
  /\ (forall tasks t,
        delayMs t < 0 ->
        (t ∉ immediate_lane tasks) /\ (t ∉ deferred_lane tasks))
  /\ (forall tasks w,
        runLanes heap fire_order tasks w
        = runLanes heap fire_order (filter (fun t => 0 <= delayMs t) tasks) w)
  /\ (forall tasks1 t tasks2 w,
        delayMs t < 0 ->
        executeTasks heap fire_order (tasks1 ++ t :: tasks2)
          {| opt_verify := false |} w
        = executeTasks heap fire_order (tasks1 ++ tasks2)
            {| opt_verify := false |} w)
  /\ (forall tasks opts w,
        let '(p, _, tr) := executeTasks heap fire_order tasks opts w in
        (forall a c, (a, c) ∈ publish_calls tr ->
                     exists t, t ∈ tasks /\ 0 <= delayMs t
                               /\ call_of t = (a, c))
        /\ (forall rs r, p = Fulfilled rs -> r ∈ rs ->
                         exists t, t ∈ tasks /\ 0 <= delayMs t
                                   /\ produced heap tr r t))
  /\ (forall tasks w,
        Forall (fun t => delayMs t < 0) tasks ->
        executeTasks heap fire_order tasks {| opt_verify := false |} w
        = (Fulfilled [], w, [])).
Proof.
  assert (Hnum : forall now n, parseDelay now (DelayNumber n) = Return n).
  { intros now n. simpl. by destruct (Z.eqb_spec n 0) as [->|_]. }
  assert (Hlanes : forall tasks w,
            runLanes heap fire_order tasks w
            = runLanes heap fire_order
                (filter (fun t => 0 <= delayMs t) tasks) w).
  { intros tasks w. symmetry. apply runLanes_nonnegative. }
  split; [done|]. split; [|split; [|split; [done|split; [|split]]]].
  - intros now content adapters rname name a n Hv Ha.
    unfold evaluateRules. rewrite Hv. simpl. rewrite Ha.
    by destruct (Z.eqb_spec n 0) as [->|_].
  - intros tasks t Hneg. unfold immediate_lane, deferred_lane.
    rewrite !list_elem_of_filter. lia.
  - intros tasks1 t tasks2 w Hneg. rewrite !executeTasks_eq.
    unfold verifyGate, ret. simpl.
    rewrite (Hlanes (tasks1 ++ t :: tasks2)), (Hlanes (tasks1 ++ tasks2)).
    rewrite !filter_app, filter_cons_False by lia. done.
  - intros tasks opts w. rewrite executeTasks_eq.
    destruct (verifyGate heap tasks opts w) as [[[tasks'|e] w1] tr1] eqn:Hgate.
    + apply verifyGate_sub in Hgate as [Hp1 Hsub].
      specialize (Hsub tasks' eq_refl).
      destruct (runLanes heap fire_order tasks' w1) as [[p w2] tr2] eqn:Hrun.
      split.
      * intros a c Hin. rewrite publish_calls_app, Hp1 in Hin.
        destruct (runLanes_calls_sub _ _ _ _ _ _ _ _ _ Hrun Hin)
          as (t & Ht & Hd & Hc).
        exists t. auto.
      * intros rs r -> Hr. apply runLanes_fulfilled in Hrun.
        apply list_elem_of_lookup_1 in Hr as [i Hi].
        destruct (Forall2_lookup_l _ _ _ _ _ Hrun Hi) as (t & Ht & Hprod).
        exists t. apply list_elem_of_lookup_2 in Ht.
        unfold immediate_lane, deferred_lane in Ht.
        split; [|split; [|by apply produced_app_r]].
        -- apply Hsub. apply elem_of_app in Ht as [Ht | Ht];
             by apply list_elem_of_filter in Ht as [_ ?].
        -- apply elem_of_app in Ht as [Ht | Ht];
             apply list_elem_of_filter in Ht as [? _]; lia.
    + apply verifyGate_sub in Hgate as [Hp1 _]. split.
      * intros a c Hin. rewrite Hp1 in Hin. by apply elem_of_nil in Hin.
      * by intros rs r [=].
  - intros tasks w Hneg. rewrite executeTasks_eq.
    unfold verifyGate, ret. simpl. rewrite Hlanes.
    assert (filter (fun t => 0 <= delayMs t) tasks = []) as ->.
    { induction Hneg as [|t tasks Ht _ IH]; [done|].
      by rewrite filter_cons_False by lia. }
    by rewrite runLanes_no_tasks.
Qed.

Lemma executeTasks_drops_negative_witness :
  delayMs (demo_task 1 (-5) "never") < 0
  /\ executeTasks demo_heap expiry_order
       ([demo_task 1 0 "now"] ++ demo_task 1 (-5) "never"
          :: [demo_task 1 20 "soon"])
       {| opt_verify := false |} demo_world
     = executeTasks demo_heap expiry_order
         ([demo_task 1 0 "now"] ++ [demo_task 1 20 "soon"])
         {| opt_verify := false |} demo_world
  /\ executeTasks demo_heap expiry_order [demo_task 1 (-5) "never"]
       {| opt_verify := false |} demo_world
     = (Fulfilled [], demo_world, []).
Proof.
  destruct (executeTasks_drops_negative demo_heap expiry_order)
    as (_ & _ & _ & _ & Hdrop & _ & Hall).
  split; [reflexivity|]. split.
  - apply Hdrop. reflexivity.
  - apply Hall. by repeat constructor.
Defined.

(* ================================================================= *)
(** * Further properties of the engine *)

(** ** The condition matcher, field by field *)

Lemma array_includes_elem (arr : list string) (x : string) :
  array_includes arr x = true <-> x ∈ arr.
Proof.
  unfold array_includes. rewrite existsb_exists. split.
  - intros (y & Hin & Heq). apply String.eqb_eq in Heq as ->.
    by apply list_elem_of_In.
  - intros Hin. exists x. split; [by apply list_elem_of_In|].
    apply String.eqb_refl.
Qed.

Lemma any_tag_included (required contentTags : list string) :
  existsb (fun tag => array_includes contentTags tag) required = true
  <-> exists tag, tag ∈ required /\ tag ∈ contentTags.
Proof.
  rewrite existsb_exists. split.
  - intros (tag & Hin & Hinc). exists tag.
    split; [by apply list_elem_of_In | by apply array_includes_elem].
  - intros (tag & Hin & Hinc). exists tag.
    split; [by apply list_elem_of_In | by apply array_includes_elem].
Qed.

Lemma field_check (wanted got : option string) :
  truthy wanted && negb (bool_decide (got = wanted)) = false
  <-> field_agrees wanted got.
Proof.
  unfold field_agrees. destruct wanted as [v|]; [|done].
  simpl. destruct (String.eqb_spec v EmptyString) as [->|Hne]; simpl.
  - split; auto.
  - case_bool_decide; simpl; split; try done; auto.
    intros [? | ?]; done.
Qed.

(** X1. The matcher accepts a content under a set of conditions exactly
    when every field that is set agrees with it: one of the listed tags is
    among the tags of the content, [type] and [lang] are equal to those of
    the content, and [hasMedia] tells whether the content has a photo, a
    document or a video. A field set to the empty string constrains
    nothing, absent conditions accept everything, and an empty array of
    tags accepts nothing. *)
Theorem matchesConditions_fields (content : Content) :
  matchesConditions content None = true
  /\ (forall conditions,
        matchesConditions content (Some conditions) = true
        <-> tags_agree content conditions
            /\ field_agrees (if_type conditions) (type content)
            /\ field_agrees (if_lang conditions) (lang content)
            /\ media_agrees content conditions)
  /\ (forall ty la me,
        matchesConditions content
          (Some {| if_tags := Some (TagArray []); if_type := ty;
                   if_lang := la; if_hasMedia := me |}) = false).
Proof.
  split; [done|]. split; [|done].
  intros [tg ty la me]. unfold matchesConditions, no_keys. simpl.
  assert (Htags :
    match tg with
    | Some (TagArray required) =>
        negb (existsb (fun tag => array_includes (default [] (tags content)) tag)
                required)
    | Some (TagSingle t) =>
        truthy (Some t)
        && negb (existsb (fun tag => array_includes (default [] (tags content)) tag)
                   [t])
    | None => false
    end = false
    <-> tags_agree content
          {| if_tags := tg; if_type := ty; if_lang := la; if_hasMedia := me |}).
  { unfold tags_agree. simpl. destruct tg as [[required|t]|]; [| |done].
    - rewrite negb_false_iff. apply any_tag_included.
    - simpl. rewrite orb_false_r.
      destruct (String.eqb_spec t EmptyString) as [->|Hne]; simpl.
      + split; auto.
      + rewrite negb_false_iff, array_includes_elem. split; [auto|].
        intros [? | ?]; done. }
  assert (Hmedia :
    match me with
    | Some wanted =>
        negb (Bool.eqb wanted
                (truthy (photo content) || truthy (document content)
                 || truthy (video content)))
    | None => false
    end = false
    <-> media_agrees content
          {| if_tags := tg; if_type := ty; if_lang := la; if_hasMedia := me |}).
  { unfold media_agrees, has_matched_media. simpl.
    destruct me as [wanted|]; [|done].
    rewrite negb_false_iff, Bool.eqb_true_iff.
    rewrite <- !truthy_reference.
    destruct wanted, (truthy (photo content)), (truthy (document content)),
      (truthy (video content)); simpl; intuition congruence. }
  pose proof (field_check ty (type content)) as Htype.
  pose proof (field_check la (lang content)) as Hlang.
  rewrite <- Htags, <- Htype, <- Hlang, <- Hmedia. clear.
  destruct tg as [[required|t]|], ty as [ty|], la as [la|], me as [wanted|];
    simpl;
    repeat match goal with
           | |- context [if ?b then _ else _] => destruct b eqn:?; simpl
           end;
    intuition congruence.
Qed.

(** X2. Passing a raw content through the model class changes neither its
    validation nor the conditions it matches, and doing it twice is doing
    it once. *)
Theorem createContent_transparent (raw : Content) :
  validate (createContent raw) = validate raw
  /\ (forall conditions,
        matchesConditions (createContent raw) conditions
        = matchesConditions raw conditions)
  /\ createContent (createContent raw) = createContent raw.
Proof.
  destruct raw as [tx ph vi dc au [tg|] ty la]; repeat split; intros;
    reflexivity.
Qed.

(** ** Rule evaluation as a comprehension *)

Lemma collect_app {A : Type} (l1 l2 : list (completion A)) :
  collect (l1 ++ l2)
  = match collect l1 with
    | Return a =>
        match collect l2 with
        | Return b => Return (a ++ b)
        | Throw e => Throw e
        end
    | Throw e => Throw e
    end.
Proof.
  induction l1 as [|[a|e] l1 IH]; simpl.
  - by destruct (collect l2).
  - rewrite IH. destruct (collect l1); [|done]. by destruct (collect l2).
  - done.
Qed.

Lemma collect_throws {A : Type} (l : list (completion A)) (e : JsError) :
  collect l = Throw e -> Throw e ∈ l.
Proof.
  induction l as [|[a|e'] l IH]; simpl; [done| |].
  - destruct (collect l); [done|]. intros [= ->].
    apply list_elem_of_further. by apply IH.
  - intros [= ->]. apply list_elem_of_here.
Qed.

Lemma evaluateTargets_collect (now : Z) (content : Content) (rule : Rule)
    (adapters : gmap string aref) (targets : list Target) (tasks : list Task) :
  (evaluateTargets now content rule adapters targets tasks).2
  = match collect
            (omap (fun target =>
                     task_of now content rule target
                       <$> adapters !! target_adapter target) targets) with
    | Return new => Return (tasks ++ new)
    | Throw e => Throw e
    end.
Proof.
  revert tasks. induction targets as [|target rest IH]; intros tasks; simpl.
  - by rewrite app_nil_r.
  - destruct (adapters !! target_adapter target) as [a|]; simpl.
    + unfold task_of at 1.
      destruct (parseDelay now (target_delay target)) as [ms|e]; [|done].
      rewrite IH.
      destruct (collect _) as [new|e]; [|done]. by rewrite <- app_assoc.
    + rewrite <- IH.
      by destruct (evaluateTargets now content rule adapters rest tasks).
Qed.

Lemma evaluateLoop_collect (now : Z) (content : Content)
    (adapters : gmap string aref) (rules : list Rule) (tasks : list Task) :
  (evaluateLoop now content adapters rules tasks).2
  = match collect (matching_rules content rules
                     ≫= rule_tasks now content adapters) with
    | Return new => Return (tasks ++ new)
    | Throw e => Throw e
    end.
Proof.
  revert tasks. induction rules as [|rule rest IH]; intros tasks; simpl.
  - by rewrite app_nil_r.
  - unfold matching_rules.
    destruct (matchesConditions content (rule_if rule)) eqn:Hm; simpl.
    + rewrite filter_cons_True by done. rewrite bind_cons, collect_app.
      pose proof (evaluateTargets_collect now content rule adapters
                    (rule_publish rule) tasks) as Ht.
      fold (rule_tasks now content adapters rule) in Ht.
      destruct (evaluateTargets now content rule adapters (rule_publish rule) tasks)
        as [log [tasks'|e]]; simpl in Ht.
      * destruct (collect (rule_tasks now content adapters rule)) as [new|e];
          [|done]. injection Ht as ->.
        specialize (IH (tasks ++ new)). unfold matching_rules in IH.
        destruct (evaluateLoop now content adapters rest (tasks ++ new))
          as [log' r]. simpl in *. rewrite IH.
        destruct (collect _) as [new'|e]; [|done]. by rewrite <- app_assoc.
      * by destruct (collect (rule_tasks now content adapters rule)).
    + rewrite filter_cons_False by (rewrite Hm; discriminate). apply IH.
Qed.

(** X3. [evaluateRules] on a valid content completes as the comprehension
    does: the tasks of the destinations that have an adapter, rule by rule
    over the rules the content matches and destination by destination, each
    with its parsed delay, its channel and the name of its rule, up to the
    first delay that does not parse; on an invalid content it throws the
    validation error. *)
Theorem evaluateRules_comprehension (now : Z) (content : Content)
    (rules : list Rule) (adapters : gmap string aref) :
  (evaluateRules now content rules adapters).2
  = if valid (validate content)
    then collect (matching_rules content rules
                    ≫= rule_tasks now content adapters)
    else Throw (SocialAdapterValidationError (errors (validate content))).
Proof.
  unfold evaluateRules. destruct (valid (validate content)); simpl; [|done].
  rewrite evaluateLoop_collect. by destruct (collect _).
Qed.

Lemma parseDelay_throw_inv (now : Z) (delay : Delay) (e : JsError) :
  parseDelay now delay = Throw e ->
  exists s, delay = DelayString s
            /\ e = Error ("Invalid delay format: '" +:+ s +:+ "'").
Proof.
  destruct delay as [|n|s]; simpl; [done| |].
  - by destruct (n =? 0).
  - destruct (String.eqb s "0"); [done|].
    destruct (match_duration (trim s)) as [[digits unit]|].
    { by destruct unit as [[] [] [] [] [] [] [] []]. }
    destruct (match_duration_time (trim s)) as [[[d hh] mm]|]; [done|].
    destruct (match_weekday (trim s)) as [[[day hh] mm]|]; [done|].
    intros [= <-]. eauto.
Qed.

(** X4. The only errors [evaluateRules] throws are the validation error of
    an invalid content and the error of a delay literal outside the
    grammar, found on a destination that has an adapter, in a rule the
    content matches. The delay of a rule that does not match is never
    parsed. *)
Theorem evaluateRules_errors (now : Z) (content : Content)
    (rules : list Rule) (adapters : gmap string aref) (e : JsError) :
  (evaluateRules now content rules adapters).2 = Throw e ->
  (valid (validate content) = false
   /\ e = SocialAdapterValidationError (errors (validate content)))
  \/ (exists rule target a s,
        rule ∈ rules
        /\ matchesConditions content (rule_if rule) = true
        /\ target ∈ rule_publish rule
        /\ adapters !! target_adapter target = Some a
        /\ target_delay target = DelayString s
        /\ ~ accepted_literal s
        /\ e = Error ("Invalid delay format: '" +:+ s +:+ "'")).
Proof.
  unfold evaluateRules. destruct (valid (validate content)); simpl.
  - rewrite evaluateLoop_collect.
    destruct (collect _) as [new|e'] eqn:Hc; [done|]. intros [= ->]. right.
    apply collect_throws in Hc.
    apply list_elem_of_bind in Hc as (rule & Hin & Hrule).
    unfold matching_rules in Hrule.
    apply list_elem_of_filter in Hrule as [Hm Hrule].
    unfold rule_tasks in Hin.
    apply list_elem_of_omap in Hin as (target & Ht & Htask).
    destruct (adapters !! target_adapter target) as [a|] eqn:Ha; [|done].
    simpl in Htask. injection Htask as Htask. unfold task_of in Htask.
    destruct (parseDelay now (target_delay target)) as [ms|e'] eqn:Hp; [done|].
    injection Htask as ->.
    destruct (parseDelay_throw_inv _ _ _ Hp) as (s & Hs & ->).
    exists rule, target, a, s. repeat (split; [done|]). split; [|done].
    intros Hacc. rewrite Hs in Hp.
    destruct (parseDelay_string_returns now s Hacc) as [ms Hms]. congruence.
  - intros [= <-]. by left.
Qed.

Lemma evaluateTargets_log (now : Z) (content : Content) (rule : Rule)
    (adapters : gmap string aref) (targets : list Target)
    (tasks tasks' : list Task) (log : list string) :
  evaluateTargets now content rule adapters targets tasks
  = (log, Return tasks') ->
  log = (fun target => warn_not_found target rule)
          <$> filter (fun target => adapters !! target_adapter target = None)
                     targets.
Proof.
  revert tasks log. induction targets as [|target rest IH]; intros tasks log.
  - by intros [= <- _].
  - simpl. destruct (adapters !! target_adapter target) as [a|] eqn:Ha.
    + rewrite filter_cons_False by (rewrite Ha; discriminate).
      destruct (parseDelay now (target_delay target)) as [ms|e]; [|done].
      apply IH.
    + rewrite filter_cons_True by done.
      destruct (evaluateTargets now content rule adapters rest tasks)
        as [log' r] eqn:Hrest.
      intros [= <- ->]. rewrite fmap_cons. f_equal. by eapply IH.
Qed.

(** X5. When [evaluateRules] returns, the console holds one warning for
    each destination without an adapter in the rules the content matches,
    in the order of the rules and of their destinations, and nothing
    else. *)
Theorem evaluateRules_warnings (now : Z) (content : Content)
    (rules : list Rule) (adapters : gmap string aref)
    (log : list string) (tasks : list Task) :
  evaluateRules now content rules adapters = (log, Return tasks) ->
  log = matching_rules content rules ≫= rule_warnings adapters.
Proof.
  unfold evaluateRules. destruct (valid (validate content)); simpl; [|done].
  generalize (@nil Task). revert log.
  induction rules as [|rule rest IH]; intros log acc; simpl.
  - by intros [= <- _].
  - unfold matching_rules.
    destruct (matchesConditions content (rule_if rule)) eqn:Hm; simpl.
    + rewrite filter_cons_True by done. rewrite bind_cons.
      destruct (evaluateTargets now content rule adapters (rule_publish rule) acc)
        as [log1 [tasks1|e]] eqn:Ht; [|done].
      apply evaluateTargets_log in Ht as ->.
      destruct (evaluateLoop now content adapters rest tasks1)
        as [log2 r] eqn:Hl.
      intros [= <- ->]. f_equal. by eapply IH.
    + rewrite filter_cons_False by (rewrite Hm; discriminate). apply IH.
Qed.

Lemma evaluateRules_errors_witness :
  (valid (validate hello) = false
   /\ Error "Invalid delay format: '50ms'"
      = SocialAdapterValidationError (errors (validate hello)))
  \/ (exists rule target a s,
        rule ∈ [{| rule_name := "r"; rule_if := None;
                   rule_publish := [{| target_adapter := "dummy";
                                       target_delay := DelayString "50ms";
                                       target_channel := None |}] |}]
        /\ matchesConditions hello (rule_if rule) = true
        /\ target ∈ rule_publish rule
        /\ demo_registry !! target_adapter target = Some a
        /\ target_delay target = DelayString s
        /\ ~ accepted_literal s
        /\ Error "Invalid delay format: '50ms'"
           = Error ("Invalid delay format: '" +:+ s +:+ "'")).
Proof.
  apply (evaluateRules_errors 0 hello _ demo_registry). by vm_compute.
Defined.

Lemma evaluateRules_warnings_witness :
  evaluateRules 0 hello demo_rules demo_registry
  = (matching_rules hello demo_rules ≫= rule_warnings demo_registry,
     Return [demo_task 1 0 "Public posts to Dummy"]).
Proof.
  pose proof (evaluateRules_warnings 0 hello demo_rules demo_registry
                ["[share.app] Adapter 'nonexistent' not found, skipping rule 'Unknown adapter'"%string]
                [demo_task 1 0 "Public posts to Dummy"]) as H.
  rewrite <- H; by vm_compute.
Defined.

(** ** The delay grammar: what the forms return *)

Lemma match_duration_digits (str n : string) (u : ascii) :
  match_duration str = Some (n, u) -> every is_digit n = true.
Proof.
  unfold match_duration.
  destruct (span is_digit str) as [digits rest] eqn:Hs.
  apply span_spec in Hs as (_ & Hd & _).
  destruct digits as [|d ds]; [done|].
  destruct rest as [|unit [|? ?]]; try done.
  destruct unit as [[] [] [] [] [] [] [] []]; try done; by intros [= <- _].
Qed.

Lemma match_duration_time_digits (str d hh mm : string) :
  match_duration_time str = Some (d, hh, mm) ->
  every is_digit d = true /\ time_of_day hh mm.
Proof.
  unfold match_duration_time.
  destruct (span is_digit str) as [digits rest] eqn:Hs.
  apply span_spec in Hs as (_ & Hd & _).
  destruct digits as [|c ds]; [done|].
  destruct rest as [|c' rest]; [done|].
  destruct (ascii_dec c' "d") as [->|Hc];
    [|destruct c' as [[] [] [] [] [] [] [] []]; try done; congruence].
  destruct (span is_white_space rest) as [spaces tail].
  destruct spaces as [|s0 sp]; [done|].
  destruct (match_hh_mm tail) as [[hh' mm']|] eqn:Ht; [|done].
  apply match_hh_mm_sound in Ht as [Htod _].
  by intros [= <- <- <-].
Qed.

Lemma parseInt_nonneg (s : string) : every is_digit s = true -> 0 <= parseInt s.
Proof. apply parseInt_go_nonneg. lia. Qed.

(** X6. A delay given as a string never parses to a negative number: the
    durations are products of numbers read from digits, and the weekday
    form is positive. *)
Theorem parseDelay_string_nonnegative (now : Z) (s : string) (ms : Z) :
  parseDelay now (DelayString s) = Return ms -> 0 <= ms.
Proof.
  intros Hp.
  destruct (String.eqb_spec s "0") as [->|Hne]; [by injection Hp as <-|].
  destruct (match_duration (trim s)) as [[digits unit]|] eqn:H1.
  { pose proof (parseInt_nonneg _ (match_duration_digits _ _ _ H1)) as Hv.
    unfold parseDelay in Hp.
    destruct (String.eqb_spec s "0") as [->|_]; [done|]. rewrite H1 in Hp.
    destruct unit as [[] [] [] [] [] [] [] []]; injection Hp as <-; lia. }
  destruct (match_duration_time (trim s)) as [[[d hh] mm]|] eqn:H2.
  { destruct (match_duration_time_digits _ _ _ _ H2) as (Hd & _ & Hh & _ & Hm).
    apply parseInt_nonneg in Hd, Hh, Hm.
    unfold parseDelay in Hp.
    destruct (String.eqb_spec s "0") as [->|_]; [done|].
    rewrite H1, H2 in Hp. injection Hp as <-. lia. }
  destruct (match_weekday (trim s)) as [[[day hh] mm]|] eqn:H3.
  { apply match_weekday_sound in H3
      as (day' & sp & hh' & mm' & Hday & Hsp & Hw & Ht & Heq).
    destruct (parseDelay_weekday now s day' sp hh' mm' Hne Hday Hsp Hw Ht Heq)
      as (ms' & Hms & Hpos & _).
    rewrite Hms in Hp. injection Hp as <-. lia. }
  unfold parseDelay in Hp.
  destruct (String.eqb_spec s "0") as [->|_]; [done|].
  by rewrite H1, H2, H3 in Hp.
Qed.

Lemma parseDelay_string_nonnegative_witness :
  parseDelay monday_9am (DelayString " Tue   23:59 ") = Return 140340000
  /\ 0 <= 140340000.
Proof.
  assert (H : parseDelay monday_9am (DelayString " Tue   23:59 ")
              = Return 140340000) by (by vm_compute).
  split; [exact H|].
  exact (parseDelay_string_nonnegative monday_9am " Tue   23:59 " _ H).
Defined.

(** X7. For a number [N] written in digits, [<N>m], [<N>h] and [<N>d]
    parse to [N] times 60 000, 3 600 000 and 86 400 000, blanks around the
    literal aside, as long as that product is within [MAX_SAFE_INTEGER],
    where the arithmetic of the code is exact. *)
Theorem parseDelay_durations (now : Z) (s n : string) :
  s <> "0"%string ->
  n <> EmptyString -> every is_digit n = true ->
  (trim s = n +:+ "m" -> parseInt n * 60000 <= MAX_SAFE_INTEGER ->
   parseDelay now (DelayString s) = Return (parseInt n * 60000))
  /\ (trim s = n +:+ "h" -> parseInt n * 3600000 <= MAX_SAFE_INTEGER ->
      parseDelay now (DelayString s) = Return (parseInt n * 3600000))
  /\ (trim s = n +:+ "d" -> parseInt n * 86400000 <= MAX_SAFE_INTEGER ->
      parseDelay now (DelayString s) = Return (parseInt n * 86400000)).
Proof.
  intros Hs Hn Hd.
  assert (Hunit : forall u, u ∈ ["m"; "h"; "d"]%char ->
            trim s = n +:+ String u EmptyString ->
            parseDelay now (DelayString s)
            = Return (parseInt n
                      * match u with
                        | "m" => 60000
                        | "h" => 3600000
                        | _ => 86400000
                        end%char)).
  { intros u Hu Heq. unfold parseDelay.
    destruct (String.eqb_spec s "0") as [->|_]; [done|].
    rewrite Heq, (match_duration_complete n u Hn Hd Hu).
    repeat (apply elem_of_cons in Hu as [-> | Hu]; [f_equal; lia|]).
    by apply elem_of_nil in Hu. }
  split; [|split]; intros Heq _.
  - apply (Hunit "m"%char); [set_solver | done].
  - apply (Hunit "h"%char); [set_solver | done].
  - apply (Hunit "d"%char); [set_solver | done].
Qed.

Lemma parseDelay_durations_witness :
  parseDelay 0 (DelayString " 090m ") = Return (parseInt "090" * 60000).
Proof.
  destruct (parseDelay_durations 0 " 090m " "090") as (Hm & _ & _);
    [discriminate | discriminate | reflexivity |].
  apply Hm; [reflexivity | by vm_compute].
Defined.

(** X8. For a weekday literal with a time of the clock, the delay is
    positive and below eight days. On any other weekday than the one the
    literal names it is below seven days; on that weekday it is seven days
    plus the time of the literal minus the time of day, so above seven
    days whenever the time of the literal is still to come today. *)
Theorem parseDelay_weekday_bounds (now : Z) (s day spaces hh mm : string) :
  s <> "0"%string ->
  day ∈ weekdays ->
  spaces <> EmptyString -> every is_white_space spaces = true ->
  time_of_day hh mm ->
  parseInt hh < 24 -> parseInt mm < 60 ->
  trim s = day +:+ spaces +:+ hh +:+ ":" +:+ mm ->
  let time := parseInt hh * 3600000 + parseInt mm * 60000 in
  exists ms,
    parseDelay now (DelayString s) = Return ms
    /\ 0 < ms < 8 * MS_PER_DAY
    /\ (getDay now <> indexOf day dayNames -> ms < 7 * MS_PER_DAY)
    /\ (getDay now = indexOf day dayNames ->
        ms = 7 * MS_PER_DAY + time - now mod MS_PER_DAY
        /\ (now mod MS_PER_DAY < time -> 7 * MS_PER_DAY < ms)).
Proof.
  intros Hs Hday Hsp Hw Ht Hh24 Hm60 Heq time. unfold parseDelay.
  destruct (String.eqb_spec s "0") as [->|_]; [done|].
  rewrite Heq.
  destruct (weekday_not_duration day (spaces +:+ hh +:+ ":" +:+ mm) Hday)
    as [-> ->].
  rewrite match_weekday_complete by done.
  eexists. split; [reflexivity|].
  pose proof (indexOf_weekday day Hday) as Hk.
  pose proof (getDay_range now) as Hg.
  destruct Ht as (_ & Hdh & _ & Hdm).
  pose proof (parseInt_nonneg hh Hdh) as Hh.
  pose proof (parseInt_nonneg mm Hdm) as Hm.
  unfold setHours, addDate. subst time.
  set (k := indexOf day dayNames) in *. set (g := getDay now) in *.
  set (d := if k - g <=? 0 then k - g + 7 else k - g).
  assert (Hd : 1 <= d <= 7 /\ (g <> k -> d <= 6) /\ (g = k -> d = 7)).
  { unfold d. destruct (Z.leb_spec (k - g) 0); lia. }
  assert (Hdiv : (now + d * MS_PER_DAY) / MS_PER_DAY = now / MS_PER_DAY + d).
  { apply Z.div_add. unfold MS_PER_DAY. lia. }
  rewrite Hdiv.
  pose proof (Z.div_mod now MS_PER_DAY) as Hdm'.
  pose proof (Z.mod_pos_bound now MS_PER_DAY) as Hmod.
  unfold MS_PER_DAY in *.
  destruct Hd as (Hd1 & Hd6 & Hd7).
  split; [lia|]. split; [intros Hne; specialize (Hd6 Hne); lia|].
  intros Hsame. specialize (Hd7 Hsame). lia.
Qed.

Lemma parseDelay_weekday_bounds_witness :
  exists ms,
    parseDelay monday_9am (DelayString "Mon 10:00") = Return ms
    /\ 0 < ms < 8 * MS_PER_DAY
    /\ (getDay monday_9am <> indexOf "Mon" dayNames -> ms < 7 * MS_PER_DAY)
    /\ (getDay monday_9am = indexOf "Mon" dayNames ->
        ms = 7 * MS_PER_DAY
             + (parseInt "10" * 3600000 + parseInt "00" * 60000)
             - monday_9am mod MS_PER_DAY
        /\ (monday_9am mod MS_PER_DAY
            < parseInt "10" * 3600000 + parseInt "00" * 60000 ->
            7 * MS_PER_DAY < ms)).
Proof.
  apply (parseDelay_weekday_bounds monday_9am "Mon 10:00" "Mon" " " "10" "00");
    try reflexivity; try discriminate.
  - apply list_elem_of_here.
  - by vm_compute.
Defined.

(** ** The dispatcher: the order of the calls and how the promise settles *)

Lemma publish_calls_none (tr : list Event) (a : aref) (c : Content)
    (r : completion PublishResult) :
  publish_calls tr = [] -> Publish a c r ∉ tr.
Proof.
  intros Hnil Hin.
  assert (Hc : (a, c) ∈ publish_calls tr).
  { unfold publish_calls. apply list_elem_of_omap.
    by exists (Publish a c r). }
  rewrite Hnil in Hc. by apply elem_of_nil in Hc.
Qed.

Section DispatcherSettles.
Context {World : Type}.
Variable heap : aref -> Adapter World.
Variable fire_order : list Task -> list nat.

Lemma fireTimers_frame (de : list Task) (order : list nat)
    (slots slots' : list (option Result)) (w w' : World) (tr : list Event) :
  fireTimers heap de order slots w = (slots', w', tr) ->
  forall i, i ∉ order -> slots' !! i = slots !! i.
Proof.
  revert slots w tr. induction order as [|j rest IH]; intros slots w tr.
  - by intros [= <- <- <-].
  - simpl. intros Hrun i Hi.
    apply not_elem_of_cons in Hi as [Hne Hi].
    destruct (de !! j) as [t|]; [|by eapply IH].
    destruct (timerCallback heap t w) as [[[r|e] w1] tr1].
    + destruct (fireTimers heap de rest (<[j:=Some r]> slots) w1)
        as [[s2 w2] tr2] eqn:Hrest.
      injection Hrun as <- <- <-.
      rewrite (IH _ _ _ Hrest i Hi). by rewrite list_lookup_insert_ne.
    + destruct (fireTimers heap de rest slots w1) as [[s2 w2] tr2] eqn:Hrest.
      injection Hrun as <- <- <-. by eapply IH.
Qed.

Lemma fireTimers_threw (de : list Task) (order : list nat)
    (slots slots' : list (option Result)) (w w' : World) (tr : list Event)
    (a : aref) (c : Content) (e : JsError) :
  NoDup order ->
  (forall i, i ∈ order -> ~ resolved slots i) ->
  fireTimers heap de order slots w = (slots', w', tr) ->
  Publish a c (Throw e) ∈ tr ->
  exists i, i ∈ order /\ is_Some (de !! i) /\ ~ resolved slots' i.
Proof.
  revert slots w tr. induction order as [|j rest IH]; intros slots w tr Hnd Hun.
  - intros [= <- <- <-] Hin. by apply elem_of_nil in Hin.
  - apply NoDup_cons in Hnd as [Hj Hnd]. simpl.
    assert (Hun' : forall i, i ∈ rest -> ~ resolved slots i).
    { intros i Hi. apply Hun. by apply list_elem_of_further. }
    assert (Hlift : forall s2,
              (exists i, i ∈ rest /\ is_Some (de !! i) /\ ~ resolved s2 i) ->
              exists i, i ∈ j :: rest /\ is_Some (de !! i) /\ ~ resolved s2 i).
    { intros s2 (i & Hi & Hrest). exists i.
      split; [by apply list_elem_of_further | done]. }
    destruct (de !! j) as [t|] eqn:Ht.
    + rewrite timerCallback_eq.
      destruct (publish (heap (adapter t)) (content t) w) as [[pr|e'] w1].
      * destruct (adapter_id (heap (adapter t))) as [i_t|e'].
        -- destruct (fireTimers heap de rest
                       (<[j:=Some (mkResult pr t i_t)]> slots) w1)
             as [[s2 w2] tr2] eqn:Hrest.
           intros [= <- <- <-] Hin.
           apply elem_of_cons in Hin as [[=] | Hin].
           apply Hlift. eapply IH; [done | | exact Hrest | done].
           intros i Hi [r Hr]. apply (Hun' i Hi). exists r.
           rewrite list_lookup_insert_ne in Hr; [done|]. by intros <-.
        -- destruct (fireTimers heap de rest slots w1)
             as [[s2 w2] tr2] eqn:Hrest.
           intros [= <- <- <-] Hin.
           apply elem_of_cons in Hin as [[=] | Hin].
           apply elem_of_cons in Hin as [[=] | Hin].
           apply Hlift. by eapply IH.
      * destruct (fireTimers heap de rest slots w1)
          as [[s2 w2] tr2] eqn:Hrest.
        intros [= <- <- <-] Hin.
        apply elem_of_cons in Hin as [_ | Hin].
        -- exists j. split; [apply list_elem_of_here|]. split; [by rewrite Ht|].
           intros [r Hr]. rewrite (fireTimers_frame _ _ _ _ _ _ _ Hrest j Hj) in Hr.
           apply (Hun j); [apply list_elem_of_here | by exists r].
        -- apply elem_of_cons in Hin as [[=] | Hin].
           apply Hlift. by eapply IH.
    + intros Hrest Hin. apply Hlift. by eapply IH.
Qed.


Lemma warnings_app (tr1 tr2 : list Event) :
  warnings (tr1 ++ tr2) = warnings tr1 ++ warnings tr2.
Proof. apply omap_app. Qed.

Lemma runImmediate_no_warnings (im : list Task) (acc : list Result)
    (w w' : World) (c : completion (list Result)) (tr : list Event) :
  runImmediate heap im acc w = (c, w', tr) -> warnings tr = [].
Proof.
  revert acc w tr. induction im as [|t rest IH]; intros acc w tr.
  - by intros [= <- <- <-].
  - rewrite runImmediate_cons.
    destruct (publish (heap (adapter t)) (content t) w) as [[pr|e] w1];
      [|by intros [= <- <- <-]].
    destruct (adapter_id (heap (adapter t))) as [i|e];
      [|by intros [= <- <- <-]].
    destruct (runImmediate heap rest (acc ++ [mkResult pr t i]) w1)
      as [[r w2] tr2] eqn:Hrest.
    intros [= <- <- <-]. simpl. by eapply IH.
Qed.

Lemma timerCallback_no_warnings (t : Task) (w w' : World)
    (c : completion Result) (tr : list Event) :
  timerCallback heap t w = (c, w', tr) -> warnings tr = [].
Proof.
  rewrite timerCallback_eq.
  destruct (publish (heap (adapter t)) (content t) w) as [[pr|e] w1];
    [|by intros [= <- <- <-]].
  by destruct (adapter_id (heap (adapter t))) as [i|e]; intros [= <- <- <-].
Qed.

Lemma fireTimers_no_warnings (de : list Task) (order : list nat)
    (slots slots' : list (option Result)) (w w' : World) (tr : list Event) :
  fireTimers heap de order slots w = (slots', w', tr) -> warnings tr = [].
Proof.
  revert slots w tr. induction order as [|j rest IH]; intros slots w tr.
  - by intros [= <- <- <-].
  - simpl. destruct (de !! j) as [t|]; [|by apply IH].
    destruct (timerCallback heap t w) as [[[r|e] w1] tr1] eqn:Hcall;
      apply timerCallback_no_warnings in Hcall.
    + destruct (fireTimers heap de rest (<[j:=Some r]> slots) w1)
        as [[s2 w2] tr2] eqn:Hrest.
      intros [= <- <- <-]. rewrite warnings_app, Hcall. by eapply IH.
    + destruct (fireTimers heap de rest slots w1) as [[s2 w2] tr2] eqn:Hrest.
      intros [= <- <- <-]. rewrite warnings_app, Hcall. simpl. by eapply IH.
Qed.

Lemma runLanes_no_warnings (tasks : list Task) (w w' : World)
    (p : Settlement (list Result)) (tr : list Event) :
  runLanes heap fire_order tasks w = (p, w', tr) -> warnings tr = [].
Proof.
  rewrite runLanes_eq.
  destruct (runImmediate heap (immediate_lane tasks) [] w)
    as [[[rs|e] w1] tr1] eqn:Him;
    apply runImmediate_no_warnings in Him; [|by intros [= <- <- <-]].
  destruct (fireTimers heap (deferred_lane tasks)
              (fire_order (deferred_lane tasks))
              (replicate (length (deferred_lane tasks)) None) w1)
    as [[slots w2] tr2] eqn:Hfire.
  apply fireTimers_no_warnings in Hfire.
  destruct (mapM (M := option) (fun slot => slot) slots);
    intros [= <- <- <-]; by rewrite warnings_app, Him, Hfire.
Qed.

Lemma starts_with_publish_app (tr1 tr2 : list Event) :
  starts_with_publish tr1 -> starts_with_publish tr2 ->
  starts_with_publish (tr1 ++ tr2).
Proof. by destruct tr1 as [|[] ?]. Qed.

Lemma runImmediate_starts (im : list Task) (acc : list Result)
    (w w' : World) (c : completion (list Result)) (tr : list Event) :
  runImmediate heap im acc w = (c, w', tr) -> starts_with_publish tr.
Proof.
  destruct im as [|t rest]; [by intros [= <- <- <-]|].
  rewrite runImmediate_cons.
  destruct (publish (heap (adapter t)) (content t) w) as [[pr|e] w1];
    [|by intros [= <- <- <-]].
  destruct (adapter_id (heap (adapter t))) as [i|e];
    [|by intros [= <- <- <-]].
  destruct (runImmediate heap rest (acc ++ [mkResult pr t i]) w1)
    as [[r w2] tr2].
  by intros [= <- <- <-].
Qed.

Lemma timerCallback_starts (t : Task) (w w' : World)
    (c : completion Result) (tr : list Event) :
  timerCallback heap t w = (c, w', tr) ->
  exists a content r, tr = [Publish a content r].
Proof.
  rewrite timerCallback_eq.
  destruct (publish (heap (adapter t)) (content t) w) as [[pr|e] w1];
    [|intros [= <- <- <-]; by eexists _, _, _].
  destruct (adapter_id (heap (adapter t))) as [i|e]; intros [= <- <- <-];
    by eexists _, _, _.
Qed.

Lemma fireTimers_starts (de : list Task) (order : list nat)
    (slots slots' : list (option Result)) (w w' : World) (tr : list Event) :
  fireTimers heap de order slots w = (slots', w', tr) ->
  starts_with_publish tr.
Proof.
  revert slots w tr. induction order as [|j rest IH]; intros slots w tr.
  - by intros [= <- <- <-].
  - simpl. destruct (de !! j) as [t|]; [|by apply IH].
    destruct (timerCallback heap t w) as [[[r|e] w1] tr1] eqn:Hcall;
      apply timerCallback_starts in Hcall as (a & c & o & ->).
    + destruct (fireTimers heap de rest (<[j:=Some r]> slots) w1)
        as [[s2 w2] tr2].
      by intros [= <- <- <-].
    + destruct (fireTimers heap de rest slots w1) as [[s2 w2] tr2].
      by intros [= <- <- <-].
Qed.

Lemma runLanes_starts (tasks : list Task) (w w' : World)
    (p : Settlement (list Result)) (tr : list Event) :
  runLanes heap fire_order tasks w = (p, w', tr) -> starts_with_publish tr.
Proof.
  rewrite runLanes_eq.
  destruct (runImmediate heap (immediate_lane tasks) [] w)
    as [[[rs|e] w1] tr1] eqn:Him;
    apply runImmediate_starts in Him; [|by intros [= <- <- <-]].
  destruct (fireTimers heap (deferred_lane tasks)
              (fire_order (deferred_lane tasks))
              (replicate (length (deferred_lane tasks)) None) w1)
    as [[slots w2] tr2] eqn:Hfire.
  apply fireTimers_starts in Hfire.
  destruct (mapM (M := option) (fun slot => slot) slots);
    intros [= <- <- <-]; by apply starts_with_publish_app.
Qed.
End DispatcherSettles.


Lemma runLanes_fulfilled_returned {World : Type}
    (heap : aref -> Adapter World) (fire_order : list Task -> list nat)
    (tasks : list Task) (w w' : World) (rs : list Result) (tr : list Event) :
  fire_order (deferred_lane tasks) ≡ₚ seq 0 (length (deferred_lane tasks)) ->
  runLanes heap fire_order tasks w = (Fulfilled rs, w', tr) ->
  publishes_returned tr.
Proof.
  intros Hperm. rewrite runLanes_eq.
  destruct (runImmediate heap (immediate_lane tasks) [] w)
    as [[[rs1|e] w1] tr1] eqn:Him; [|done].
  apply runImmediate_returns in Him as (_ & _ & _ & _ & _ & Hret1).
  destruct (fireTimers heap (deferred_lane tasks) _ _ w1)
    as [[slots w2] tr2] eqn:Hde.
  destruct (mapM _ slots) as [drs|] eqn:Hm; [|done].
  intros [= <- <- <-]. apply publishes_returned_app. split; [done|].
  intros a c e Hin.
  assert (Hnd : NoDup (fire_order (deferred_lane tasks))).
  { rewrite Hperm. apply NoDup_seq. }
  assert (Hun0 : forall i, i ∈ fire_order (deferred_lane tasks) ->
            ~ resolved (replicate (length (deferred_lane tasks)) None) i).
  { intros i _ [r Hr]. apply lookup_replicate in Hr as [[=] _]. }
  destruct (fireTimers_threw heap _ _ _ _ _ _ _ a c e Hnd Hun0 Hde Hin)
    as (i & _ & Hsome & Hun).
  apply Hun. apply lookup_lt_is_Some in Hsome.
  apply fireTimers_spec in Hde as (Hlen & _).
  rewrite length_replicate in Hlen.
  destruct (lookup_lt_is_Some_2 slots i) as [slot Hslot]; [lia|].
  apply mapM_Some in Hm.
  destruct (Forall2_lookup_l _ _ _ _ _ Hm Hslot) as (r & _ & ->).
  by exists r.
Qed.

(** X9. In a run of [executeTasks] every [verify()] call comes before
    every [publish] call, and the console gets nothing once the lanes have
    started. With the gate off the whole run calls no [verify()] and logs
    nothing, and the first thing it does is a [publish] call. *)
Theorem executeTasks_verify_before_publish {World : Type}
    (heap : aref -> Adapter World) (fire_order : list Task -> list nat)
    (tasks : list Task) (opts : Opts) (w : World) :
  let '(_, _, tr) := executeTasks heap fire_order tasks opts w in
  (exists tr1 tr2,
     tr = tr1 ++ tr2
     /\ publish_calls tr1 = []
     /\ verify_calls tr2 = []
     /\ warnings tr2 = []
     /\ (opt_verify opts = false -> tr1 = []))
  /\ (opt_verify opts = false ->
      verify_calls tr = [] /\ warnings tr = [] /\ starts_with_publish tr).
Proof.
  rewrite executeTasks_eq.
  destruct (verifyGate heap tasks opts w) as [[[tasks'|e] w1] tr1] eqn:Hgate.
  - destruct (runLanes heap fire_order tasks' w1) as [[p w2] tr2] eqn:Hrun.
    pose proof (verifyGate_sub _ _ _ _ _ _ _ Hgate) as [Hp _].
    pose proof (runLanes_calls _ _ _ _ _ _ _ Hrun) as [Hv _].
    pose proof (runLanes_no_warnings _ _ _ _ _ _ _ Hrun) as Hw.
    pose proof (runLanes_starts _ _ _ _ _ _ _ Hrun) as Hs.
    assert (Hoff : opt_verify opts = false -> tr1 = []).
    { intros Hoff. unfold verifyGate in Hgate. rewrite Hoff in Hgate.
      by injection Hgate as _ _ <-. }
    split.
    + exists tr1, tr2. by repeat split.
    + intros Hoff0. by rewrite (Hoff Hoff0).
  - assert (Hoff : opt_verify opts = false -> False).
    { intros Hoff. unfold verifyGate in Hgate. by rewrite Hoff in Hgate. }
    pose proof (verifyGate_sub _ _ _ _ _ _ _ Hgate) as [Hp _].
    split.
    + exists tr1, []. rewrite app_nil_r.
      repeat split; try done; intros H; by destruct (Hoff H).
    + intros H. by destruct (Hoff H).
Qed.

Lemma executeTasks_verify_before_publish_witness :
  let tr := (executeTasks demo_heap expiry_order demo_batch
               {| opt_verify := false |} demo_world).2 in
  verify_calls tr = [] /\ warnings tr = [] /\ starts_with_publish tr.
Proof.
  pose proof (executeTasks_verify_before_publish demo_heap expiry_order
                demo_batch {| opt_verify := false |} demo_world) as H.
  destruct (executeTasks demo_heap expiry_order demo_batch
              {| opt_verify := false |} demo_world) as [[p w'] tr].
  by apply H.
Defined.

(** X10. With adapters that have an identifier, the promise of
    [executeTasks] is fulfilled exactly when no [publish] call of the run
    threw: one failure, in either lane, and the caller gets no list. *)
Theorem executeTasks_fulfilled_iff {World : Type}
    (heap : aref -> Adapter World) (fire_order : list Task -> list nat)
    (tasks : list Task) (opts : Opts) (w : World) :
  (forall l, fire_order l ≡ₚ seq 0 (length l)) ->
  ids_implemented heap tasks ->
  let '(p, _, tr) := executeTasks heap fire_order tasks opts w in
  (exists rs, p = Fulfilled rs) <-> publishes_returned tr.
Proof.
  intros Hperm Hids.
  destruct (executeTasks heap fire_order tasks opts w) as [[p w'] tr] eqn:Hrun.
  destruct (executeTasks_spec _ _ _ _ _ _ _ _ Hids Hrun)
    as (tr1 & tr2 & w1 & Htr & Hlanes & Hp1 & _).
  split.
  - intros [rs ->]. rewrite Htr. apply publishes_returned_app. split.
    + intros a c e. by apply publish_calls_none.
    + eapply runLanes_fulfilled_returned; [apply Hperm | exact Hlanes].
  - intros Hret.
    eapply (runLanes_settles heap fire_order);
      [apply Hperm | | exact Hlanes |].
    + exact (ids_implemented_sub heap tasks _ (survivors_sub opts tr tasks) Hids).
    + rewrite Htr in Hret. by apply publishes_returned_app in Hret as [_ ?].
Qed.

Lemma executeTasks_fulfilled_iff_witness :
  let '(p, _, tr) :=
    executeTasks demo_heap expiry_order demo_batch
      {| opt_verify := true |} demo_world in
  (exists rs, p = Fulfilled rs) <-> publishes_returned tr.
Proof.
  exact (executeTasks_fulfilled_iff demo_heap expiry_order demo_batch
           {| opt_verify := true |} demo_world expiry_order_perm demo_ids).
Defined.




(** ** The reference adapter *)

Lemma posts_of_set_posts (this : aref) (m : gmap string Post) (w : DummyWorld) :
  posts_of this (set_posts this m w) = m.
Proof. unfold posts_of, set_posts. simpl. by rewrite lookup_insert_eq. Qed.

Lemma posts_of_set_posts_ne (this other : aref) (m : gmap string Post)
    (w : DummyWorld) :
  other <> this -> posts_of other (set_posts this m w) = posts_of other w.
Proof.
  intros Hne. unfold posts_of, set_posts. simpl.
  by rewrite lookup_insert_ne.
Qed.

Lemma Dummy_publish_fits (this : aref) (content : Content) (w : DummyWorld) :
  fits_limit content ->
  Dummy_publish this content w
  = (Return {| id := next_post_id w;
               url := "https://dummy.nan0web.app/posts/" +:+ next_post_id w;
               payload := Some (next_post content w) |},
     set_posts this (<[next_post_id w := next_post content w]> (posts_of this w))
       (Date_now (Date_now w).2).2).
Proof.
  intros Hfit. unfold Dummy_publish.
  assert (truthy (text content)
          && (280 <? Z.of_nat (String.length (default EmptyString (text content))))
          = false) as ->; [|done].
  apply andb_false_iff. right. apply Z.ltb_ge.
  destruct (text content) as [t|] eqn:Ht; simpl; [by apply Hfit | lia].
Qed.

Lemma hello_fits : fits_limit hello.
Proof. intros t [= <-]. by vm_compute. Qed.

(** X12. The reference adapter refuses a text of more than 280 characters
    with an error and leaves its store as it was; any other content it
    publishes. *)
Theorem Dummy_publish_limit (this : aref) (content : Content) (w : DummyWorld) :
  (fits_limit content ->
   exists r w', Dummy_publish this content w = (Return r, w'))
  /\ (~ fits_limit content ->
      Dummy_publish this content w
      = (Throw (Error "Content exceeds max length of 280"), w)).
Proof.
  split.
  - intros Hfit. rewrite Dummy_publish_fits by done. eauto.
  - intros Hlong. unfold Dummy_publish.
    destruct (text content) as [t|] eqn:Ht.
    + destruct (Z.ltb_spec 280 (Z.of_nat (String.length t))) as [Hlt|Hle].
      * assert (truthy (Some t) = true) as ->; [|by simpl; rewrite (proj2 (Z.ltb_lt _ _) Hlt)].
        simpl. destruct t; [simpl in Hlt; lia | done].
      * exfalso. apply Hlong. intros t' Ht'. rewrite Ht in Ht'. by injection Ht' as <-.
    + exfalso. apply Hlong. intros t' Ht'. congruence.
Qed.

Lemma Dummy_publish_limit_witness :
  (exists r w', Dummy_publish 1 hello demo_world = (Return r, w'))
  /\ Dummy_publish 1 long_post demo_world
     = (Throw (Error "Content exceeds max length of 280"), demo_world).
Proof.
  destruct (Dummy_publish_limit 1 hello demo_world) as [Hok _].
  destruct (Dummy_publish_limit 1 long_post demo_world) as [_ Hlong].
  split; [apply Hok, hello_fits|].
  apply Hlong. intros Hfit.
  specialize (Hfit _ eq_refl). by vm_compute in Hfit.
Defined.

(** X13. A publish of the reference adapter returns the identifier made
    from the clock and the address made from the identifier, stores the
    post under that identifier with the content it was given, and keeps
    the posts stored under other identifiers. *)
Theorem Dummy_publish_stores (this : aref) (content : Content) (w : DummyWorld) :
  fits_limit content ->
  exists r w' post,
    Dummy_publish this content w = (Return r, w')
    /\ id r = "dummy-post-" +:+ pretty (clock w (reads w))
    /\ url r = "https://dummy.nan0web.app/posts/" +:+ id r
    /\ payload r = Some post
    /\ posts_of this w' !! id r = Some post
    /\ post_content post = content
    /\ post_id post = id r
    /\ (forall other_id, other_id <> id r ->
          posts_of this w' !! other_id = posts_of this w !! other_id).
Proof.
  intros Hfit. eexists _, _, _. split; [by apply Dummy_publish_fits|].
  simpl. rewrite posts_of_set_posts.
  do 3 (split; [done|]). split; [by rewrite lookup_insert_eq|].
  do 2 (split; [done|]). intros other_id Hne.
  by rewrite lookup_insert_ne.
Qed.

Lemma Dummy_publish_stores_witness :
  exists r w' post,
    Dummy_publish 1 hello demo_world = (Return r, w')
    /\ id r = "dummy-post-" +:+ pretty (clock demo_world (reads demo_world))
    /\ url r = "https://dummy.nan0web.app/posts/" +:+ id r
    /\ payload r = Some post
    /\ posts_of 1 w' !! id r = Some post
    /\ post_content post = hello
    /\ post_id post = id r
    /\ (forall other_id, other_id <> id r ->
          posts_of 1 w' !! other_id = posts_of 1 demo_world !! other_id).
Proof. exact (Dummy_publish_stores 1 hello demo_world hello_fits). Defined.

(** X14. What the reference adapter published it can delete, once: the
    delete of the identifier a publish returned succeeds and leaves the
    store as it was before the publish, the post under that identifier
    aside, and a second delete of it fails and changes nothing. *)
Theorem Dummy_publish_delete (this : aref) (content : Content) (w : DummyWorld) :
  fits_limit content ->
  exists r w1 w2,
    Dummy_publish this content w = (Return r, w1)
    /\ Dummy_delete this (id r) w1 = (Return true, w2)
    /\ posts_of this w2 = base.delete (id r) (posts_of this w)
    /\ Dummy_delete this (id r) w2
       = (Throw (Error "Post not found on Dummy platform"), w2).
Proof.
  intros Hfit. eexists _, _, _. split; [by apply Dummy_publish_fits|].
  simpl. unfold Dummy_delete at 1.
  rewrite posts_of_set_posts, lookup_insert_eq.
  split; [reflexivity|]. rewrite posts_of_set_posts.
  split; [by rewrite delete_insert_eq|].
  unfold Dummy_delete. rewrite posts_of_set_posts.
  by rewrite delete_insert_eq, lookup_delete_eq.
Qed.

Lemma Dummy_publish_delete_witness :
  exists r w1 w2,
    Dummy_publish 1 hello demo_world = (Return r, w1)
    /\ Dummy_delete 1 (id r) w1 = (Return true, w2)
    /\ posts_of 1 w2 = base.delete (id r) (posts_of 1 demo_world)
    /\ Dummy_delete 1 (id r) w2
       = (Throw (Error "Post not found on Dummy platform"), w2).
Proof. exact (Dummy_publish_delete 1 hello demo_world hello_fits). Defined.

Lemma read_object_literal (c : Content) : read_fields (object_literal c) = c.
Proof. by destruct c as [[] [] [] [] [] [] [] []]. Qed.

Lemma read_content_instance (raw : Content) :
  read_fields (content_instance raw) = createContent raw.
Proof. reflexivity. Qed.

Lemma spread_object_literal (stored changes : Content) :
  spread stored (object_literal changes) = overlay stored changes.
Proof. by destruct changes as [[] [] [] [] [] [] [] []]. Qed.

Lemma spread_content_instance (stored raw : Content) :
  spread stored (content_instance raw) = createContent raw.
Proof. reflexivity. Qed.

(** X15. An update of a post the reference adapter published keeps its
    identifier, its address and its date of publication, and stores the
    spread of the changes over the stored content: a property the changes
    have replaces the stored field, even when its value is [undefined],
    and a property they do not have leaves the stored field as it is. So
    an object literal changes the fields it is written with and keeps the
    others, while an instance of the content model replaces every field
    and erases those it leaves unset. Unlike a publish, the update does
    not look at the length of the text. An update of an identifier the
    store does not hold fails and changes nothing. *)
Theorem Dummy_publish_update (this : aref) (content : Content)
    (changes : ContentObject) (w : DummyWorld) :
  (fits_limit content ->
   exists r w1 r' w2 post,
     Dummy_publish this content w = (Return r, w1)
     /\ Dummy_update this (id r) changes w1 = (Return r', w2)
     /\ id r' = id r /\ url r' = url r
     /\ posts_of this w2 !! id r = Some post
     /\ post_id post = id r
     /\ post_content post = spread content changes
     /\ publishedAt post = Some (clock w (S (reads w)))
     /\ updatedAt post = Some (clock w (S (S (reads w))))
     /\ (forall v, own_text changes = Some v -> text (post_content post) = v)
     /\ (own_text changes = None -> text (post_content post) = text content)
     /\ (forall patch, changes = object_literal patch ->
           post_content post = overlay content patch)
     /\ (forall raw, changes = content_instance raw ->
           post_content post = createContent raw))
  /\ (forall postId,
        posts_of this w !! postId = None ->
        Dummy_update this postId changes w
        = (Throw (Error "Post not found on Dummy platform"), w)).
Proof.
  split.
  - intros Hfit. eexists _, _, _, _, _.
    split; [by apply Dummy_publish_fits|]. simpl.
    unfold Dummy_update. rewrite posts_of_set_posts, lookup_insert_eq. simpl.
    split; [reflexivity|]. simpl. rewrite !posts_of_set_posts.
    do 2 (split; [done|]). split; [by rewrite lookup_insert_eq|]. simpl.
    do 4 (split; [done|]). repeat split.
    + by intros v ->.
    + by intros ->.
    + intros patch ->. apply spread_object_literal.
    + intros raw ->. apply spread_content_instance.
  - intros postId Hnone. unfold Dummy_update. by rewrite Hnone.
Qed.

Lemma Dummy_publish_update_witness :
  exists r w1 r' w2 post,
    Dummy_publish 1 hello demo_world = (Return r, w1)
    /\ Dummy_update 1 (id r) (content_instance long_post) w1 = (Return r', w2)
    /\ id r' = id r /\ url r' = url r
    /\ posts_of 1 w2 !! id r = Some post
    /\ post_id post = id r
    /\ post_content post = spread hello (content_instance long_post)
    /\ publishedAt post = Some (clock demo_world (S (reads demo_world)))
    /\ updatedAt post = Some (clock demo_world (S (S (reads demo_world))))
    /\ (forall v, own_text (content_instance long_post) = Some v ->
          text (post_content post) = v)
    /\ (own_text (content_instance long_post) = None ->
          text (post_content post) = text hello)
    /\ (forall patch, content_instance long_post = object_literal patch ->
          post_content post = overlay hello patch)
    /\ (forall raw, content_instance long_post = content_instance raw ->
          post_content post = createContent raw).
Proof.
  destruct (Dummy_publish_update 1 hello (content_instance long_post)
              demo_world) as [H _].
  exact (H hello_fits).
Defined.

(** X16. An instance of the reference adapter touches no store but its
    own: whatever a publish, a delete or an update on one instance does,
    the posts of every other instance are what they were. *)
Theorem Dummy_stores_apart (this other : aref) (content : Content)
    (changes : ContentObject) (postId : string) (w : DummyWorld) :
  other <> this ->
  posts_of other (Dummy_publish this content w).2 = posts_of other w
  /\ posts_of other (Dummy_delete this postId w).2 = posts_of other w
  /\ posts_of other (Dummy_update this postId changes w).2 = posts_of other w.
Proof.
  intros Hne. split; [|split].
  - unfold Dummy_publish.
    destruct (truthy (text content) && _); [done|]. simpl.
    by rewrite posts_of_set_posts_ne.
  - unfold Dummy_delete. destruct (posts_of this w !! postId); [|done].
    simpl. by rewrite posts_of_set_posts_ne.
  - unfold Dummy_update. destruct (posts_of this w !! postId); [|done].
    simpl. by rewrite posts_of_set_posts_ne.
Qed.

Lemma Dummy_stores_apart_witness :
  posts_of 2 (Dummy_publish 1 hello demo_world).2 = posts_of 2 demo_world
  /\ posts_of 2 (Dummy_delete 1 "p" demo_world).2 = posts_of 2 demo_world
  /\ posts_of 2 (Dummy_update 1 "p" (object_literal hello) demo_world).2
     = posts_of 2 demo_world.
Proof.
  apply (Dummy_stores_apart 1 2 hello (object_literal hello) "p" demo_world).
  discriminate.
Defined.

Lemma next_post_id_inj (w1 w2 : DummyWorld) :
  next_post_id w1 = next_post_id w2
  <-> clock w1 (reads w1) = clock w2 (reads w2).
Proof.
  unfold next_post_id. split; [|by intros ->].
  intros H. apply (inj pretty). by injection H.
Qed.

(** X17. The identifier of a post is made from the clock alone: two
    publishes get the same identifier exactly when the clock reads the same
    at both, and then the second post takes the place of the first in the
    store; otherwise the store holds both. *)
Theorem Dummy_publish_twice (this : aref) (first second : Content)
    (w : DummyWorld) :
  fits_limit first -> fits_limit second ->
  exists r1 w1 r2 w2,
    Dummy_publish this first w = (Return r1, w1)
    /\ Dummy_publish this second w1 = (Return r2, w2)
    /\ (id r1 = id r2 <-> clock w (reads w) = clock w (S (S (reads w))))
    /\ posts_of this w2 !! id r2 = payload r2
    /\ (id r1 = id r2 ->
        posts_of this w2
        = <[id r2 := next_post second w1]> (posts_of this w))
    /\ (id r1 <> id r2 -> posts_of this w2 !! id r1 = payload r1).
Proof.
  intros Hfit1 Hfit2. eexists _, _, _, _.
  split; [by apply Dummy_publish_fits|].
  split; [by apply Dummy_publish_fits|]. simpl.
  rewrite !posts_of_set_posts.
  split; [apply next_post_id_inj|]. split; [by rewrite lookup_insert_eq|].
  split.
  - intros ->. by rewrite insert_insert_eq.
  - intros Hne. rewrite lookup_insert_ne by done.
    by rewrite lookup_insert_eq.
Qed.

Lemma Dummy_publish_twice_witness :
  exists r1 w1 r2 w2,
    Dummy_publish 1 hello frozen_world = (Return r1, w1)
    /\ Dummy_publish 1 hello w1 = (Return r2, w2)
    /\ (id r1 = id r2
        <-> clock frozen_world (reads frozen_world)
            = clock frozen_world (S (S (reads frozen_world))))
    /\ posts_of 1 w2 !! id r2 = payload r2
    /\ (id r1 = id r2 ->
        posts_of 1 w2
        = <[id r2 := next_post hello w1]> (posts_of 1 frozen_world))
    /\ (id r1 <> id r2 -> posts_of 1 w2 !! id r1 = payload r1).
Proof.
  exact (Dummy_publish_twice 1 hello hello frozen_world hello_fits hello_fits).
Defined.

(** ** The schema description *)

Section DescribeFacts.
Context {V : Type}.
Implicit Types (props : list (string * StaticValue V)).
Implicit Types (chain : list (list (string * StaticValue V))).
Implicit Types (d : Described V) (seen : gset string).

Lemma inherited_None (key : string) props :
  inherited key props = None <-> key ∉ props.*1.
Proof.
  induction props as [|[k v] rest IH]; simpl.
  - split; [intros _; apply not_elem_of_nil | done].
  - rewrite not_elem_of_cons.
    destruct (String.eqb_spec key k) as [->|Hne]; [split; [done | tauto]|].
    rewrite IH. tauto.
Qed.

Lemma inherited_app (key : string) props1 props2 :
  inherited key (props1 ++ props2)
  = match inherited key props1 with
    | Some v => Some v
    | None => inherited key props2
    end.
Proof.
  induction props1 as [|[k v] rest IH]; simpl; [done|].
  by destruct (String.eqb key k).
Qed.

Lemma describeOwn_spec props seen seen' (result result' : list (Described V)) :
  describeOwn props seen result = (seen', result') ->
  (forall key, key ∈ seen' <-> key ∈ seen \/ key ∈ props.*1)
  /\ (forall d, d ∈ result' <-> d ∈ result \/ from_chain seen props d)
  /\ (NoDup (field <$> result) -> (forall d, d ∈ result -> field d ∈ seen) ->
      NoDup (field <$> result')
      /\ (forall d, d ∈ result' -> field d ∈ seen'))
  /\ (exists new, result' = new ++ result).
Proof.
  revert seen result. induction props as [|[key val] rest IH];
    intros seen result; simpl.
  - intros [= <- <-]. unfold from_chain. simpl.
    split; [intros key; rewrite elem_of_nil; tauto|].
    split; [intros d; split; [auto | intros [? | (_ & _ & [=])]; done]|].
    split; [done | by exists []].
  - case_bool_decide as Hseen.
    + intros Hrun. destruct (IH _ _ Hrun) as (Hs & Hm & Hn & Hp).
      split; [|split; [|split; [done|done]]].
      * intros k. rewrite Hs, elem_of_cons. split; [tauto|].
        intros [? | [-> | ?]]; auto.
      * intros d. rewrite Hm. unfold from_chain. simpl.
        destruct (String.eqb_spec (field d) key) as [Heq|Hne]; [|tauto].
        split; [|intros [? | (Hn' & _)]; [tauto | congruence]].
        intros [? | (Hn' & _)]; [tauto | congruence].
    + assert (Hkeys : forall seen2,
                (forall k, k ∈ seen2 <-> k ∈ {[key]} ∪ seen \/ k ∈ rest.*1) ->
                forall k, k ∈ seen2 <-> k ∈ seen \/ k ∈ ((key, val) :: rest).*1).
      { intros seen2 Hs k. rewrite Hs, elem_of_union, elem_of_singleton.
        simpl. rewrite elem_of_cons. tauto. }
      assert (Hskip : forall d,
                ¬ (is_builtin_key key = false
                   /\ val = FieldDef (field_help d) (field_default d)
                   /\ field d = key) ->
                from_chain ({[key]} ∪ seen) rest d
                <-> from_chain seen ((key, val) :: rest) d).
      { intros d Hno. unfold from_chain. simpl.
        rewrite not_elem_of_union, not_elem_of_singleton.
        destruct (String.eqb_spec (field d) key) as [Heq|Hne]; [|tauto].
        split; [tauto|]. intros (Hn' & Hb & [= Hv]). exfalso. apply Hno.
        by rewrite <- Heq. }
      destruct (is_builtin_key key) eqn:Hb.
      { intros Hrun. destruct (IH _ _ Hrun) as (Hs & Hm & Hn & Hp).
        split; [by apply Hkeys|]. split; [|split; [|done]].
        - intros d. rewrite Hm, Hskip; [done|]. by intros [[=] _].
        - intros Hnd Hsub. apply Hn; [done|].
          intros d Hd. apply elem_of_union. right. by apply Hsub. }
      destruct val as [help dflt|].
      * intros Hrun. destruct (IH _ _ Hrun) as (Hs & Hm & Hn & Hp).
        split; [by apply Hkeys|]. split; [|split].
        -- intros d. rewrite Hm, elem_of_cons.
           destruct (decide (field d = key)) as [Heq|Hne].
           ++ unfold from_chain. simpl. rewrite Heq, String.eqb_refl.
              rewrite not_elem_of_union, not_elem_of_singleton.
              split.
              ** intros [[-> | ?] | ((Hk & _) & _)]; [| tauto | done].
                 right. by repeat split.
              ** intros [? | (_ & _ & [= Hh Hd])]; [tauto|].
                 left. left. destruct d; simpl in *. by subst.
           ++ rewrite Hskip by (intros (_ & _ & ?); done).
              split; [|tauto]. intros [[-> | ?] | ?]; [done | tauto | tauto].
        -- intros Hnd Hsub. apply Hn.
           ++ rewrite fmap_cons. apply NoDup_cons. split; [|done]. simpl.
              intros Hin. apply list_elem_of_fmap in Hin as (d & -> & Hd).
              by apply Hseen, Hsub.
           ++ intros d Hd. apply elem_of_union.
              apply elem_of_cons in Hd as [-> | Hd]; [left | right; by apply Hsub].
              by apply elem_of_singleton.
        -- destruct Hp as [new ->].
           exists (new ++ [{| field := key; field_help := help;
                              field_default := dflt |}]).
           by rewrite <- app_assoc.
      * intros Hrun. destruct (IH _ _ Hrun) as (Hs & Hm & Hn & Hp).
        split; [by apply Hkeys|]. split; [|split; [|done]].
        -- intros d. rewrite Hm, Hskip; [done|]. by intros (_ & [=] & _).
        -- intros Hnd Hsub. apply Hn; [done|].
           intros d Hd. apply elem_of_union. right. by apply Hsub.
Qed.

Lemma describeChain_spec chain seen (result : list (Described V)) :
  (forall d, d ∈ describeChain chain seen result
             <-> d ∈ result \/ from_chain seen (concat chain) d)
  /\ (NoDup (field <$> result) -> (forall d, d ∈ result -> field d ∈ seen) ->
      NoDup (field <$> describeChain chain seen result))
  /\ (exists new, describeChain chain seen result = new ++ result).
Proof.
  revert seen result. induction chain as [|props ancestors IH];
    intros seen result; simpl.
  - split; [|split; [done | by exists []]].
    intros d. unfold from_chain. simpl.
    split; [auto | intros [? | (_ & _ & [=])]; done].
  - destruct (describeOwn props seen result) as [seen1 result1] eqn:Hown.
    destruct (describeOwn_spec _ _ _ _ _ Hown) as (Hs & Hm & Hn & [new1 Hp]).
    destruct (IH seen1 result1) as (Hm' & Hn' & [new2 Hp']).
    split; [|split].
    + intros d. rewrite Hm', Hm. unfold from_chain.
      rewrite inherited_app, Hs.
      destruct (inherited (field d) props) as [v|] eqn:Hi.
      * assert (field d ∈ props.*1).
        { destruct (decide (field d ∈ props.*1)) as [?|Hno]; [done|].
          apply inherited_None in Hno. congruence. }
        tauto.
      * apply inherited_None in Hi. split; [|tauto].
        intros [[? | (_ & _ & [=])] | ?]; tauto.
    + intros Hnd Hsub. destruct (Hn Hnd Hsub) as [Hnd1 Hsub1]. by apply Hn'.
    + exists (new2 ++ new1). by rewrite Hp', Hp, app_assoc.
Qed.
End DescribeFacts.

(** X18. [describe()] lists no field twice, whatever the classes of the
    chain declare, and the fields the class declares itself come last,
    after those its ancestors add. *)
Theorem describe_fields_once {V : Type}
    (props : list (string * StaticValue V))
    (ancestors : list (list (string * StaticValue V))) :
  NoDup (field <$> describe (props :: ancestors))
  /\ exists inherited_fields,
       describe (props :: ancestors) = inherited_fields ++ describe [props].
Proof.
  split.
  - apply describeChain_spec; [constructor|].
    intros d Hd. by apply elem_of_nil in Hd.
  - unfold describe. simpl.
    destruct (describeOwn props ∅ []) as [seen1 result1].
    destruct (describeChain_spec ancestors seen1 result1) as (_ & _ & [new ->]).
    by exists new.
Qed.

(** X19. [describe()] lists a field exactly when reading its name on the
    class gives a field definition, with the help and the default of that
    definition: the definition of the nearest class wins, a property
    redefined as something else hides the definition of an ancestor, and
    [length], [name] and [prototype] are never listed. *)
Theorem describe_nearest_definition {V : Type}
    (chain : list (list (string * StaticValue V))) (d : Described V) :
  d ∈ describe chain
  <-> is_builtin_key (field d) = false
      /\ inherited (field d) (concat chain)
         = Some (FieldDef (field_help d) (field_default d)).
Proof.
  unfold describe.
  destruct (describeChain_spec chain ∅ []) as (Hm & _).
  rewrite Hm. unfold from_chain. rewrite elem_of_nil.
  split; [intros [[] | (_ & ? & ?)]; done|].
  intros [? ?]. right. split; [apply not_elem_of_empty | done].
Qed.

Example describe_SocialAdapterConfig :
  field <$> describe [SocialAdapterConfig_statics; Model_statics]
  = ["credentials"; "account"; "id"]%string.
Proof. by vm_compute. Qed.

(** ** From the rules to the results *)

Lemma collect_returns {A : Type} (l : list (completion A)) (values : list A)
    (a : A) :
  collect l = Return values -> a ∈ values -> Return a ∈ l.
Proof.
  revert values. induction l as [|[a'|e] l IH]; intros values; simpl.
  - intros [= <-] Hin. by apply elem_of_nil in Hin.
  - destruct (collect l) as [vs|]; [|done]. intros [= <-] Hin.
    apply elem_of_cons in Hin as [-> | Hin]; [apply list_elem_of_here|].
    apply list_elem_of_further. by eapply IH.
  - done.
Qed.

Lemma evaluateRules_task_origin (now : Z) (item : Content)
    (rules : list Rule) (adapters : gmap string aref)
    (tasks : list Task) (t : Task) :
  (evaluateRules now item rules adapters).2 = Return tasks ->
  t ∈ tasks ->
  valid (validate item) = true
  /\ exists rule target,
       rule ∈ rules
       /\ matchesConditions item (rule_if rule) = true
       /\ target ∈ rule_publish rule
       /\ adapters !! target_adapter target = Some (adapter t)
       /\ parseDelay now (target_delay target) = Return (delayMs t)
       /\ content t = item
       /\ ruleName t = rule_name rule.
Proof.
  unfold evaluateRules. destruct (valid (validate item)); simpl; [|done].
  rewrite evaluateLoop_collect.
  destruct (collect _) as [new|e] eqn:Hc; [|done]. intros [= <-] Hin.
  split; [done|].
  apply (collect_returns _ _ _ Hc) in Hin.
  apply list_elem_of_bind in Hin as (rule & Hin & Hrule).
  unfold matching_rules in Hrule.
  apply list_elem_of_filter in Hrule as [Hm Hrule].
  unfold rule_tasks in Hin.
  apply list_elem_of_omap in Hin as (target & Ht & Htask).
  destruct (adapters !! target_adapter target) as [a|] eqn:Ha; [|done].
  simpl in Htask. injection Htask as Htask. unfold task_of in Htask.
  destruct (parseDelay now (target_delay target)) as [ms|e'] eqn:Hp; [|done].
  injection Htask as <-. exists rule, target. by repeat split.
Qed.

Lemma executeTasks_origin {World : Type} (heap : aref -> Adapter World)
    (fire_order : list Task -> list nat) (tasks : list Task) (opts : Opts)
    (w w' : World) (p : Settlement (list Result)) (tr : list Event) :
  executeTasks heap fire_order tasks opts w = (p, w', tr) ->
  (forall a c, (a, c) ∈ publish_calls tr ->
               exists t, t ∈ tasks /\ call_of t = (a, c))
  /\ (forall rs r, p = Fulfilled rs -> r ∈ rs ->
                   exists t, t ∈ tasks /\ produced heap tr r t).
Proof.
  rewrite executeTasks_eq.
  destruct (verifyGate heap tasks opts w) as [[[tasks'|e] w1] tr1] eqn:Hgate.
  - apply verifyGate_sub in Hgate as [Hp1 Hsub].
    specialize (Hsub tasks' eq_refl).
    destruct (runLanes heap fire_order tasks' w1) as [[p2 w2] tr2] eqn:Hrun.
    intros [= <- <- <-]. split.
    + intros a c Hin. rewrite publish_calls_app, Hp1 in Hin.
      destruct (runLanes_calls_sub _ _ _ _ _ _ _ _ _ Hrun Hin)
        as (t & Ht & _ & Hc).
      exists t. auto.
    + intros rs r -> Hr. apply runLanes_fulfilled in Hrun.
      apply list_elem_of_lookup_1 in Hr as [i Hi].
      destruct (Forall2_lookup_l _ _ _ _ _ Hrun Hi) as (t & Ht & Hprod).
      exists t. split; [|by apply produced_app_r].
      apply Hsub. apply list_elem_of_lookup_2 in Ht.
      unfold immediate_lane, deferred_lane in Ht.
      apply elem_of_app in Ht as [Ht | Ht];
        by apply list_elem_of_filter in Ht as [_ ?].
  - apply verifyGate_sub in Hgate as [Hp1 _]. intros [= <- <- <-]. split.
    + intros a c Hin. rewrite Hp1 in Hin. by apply elem_of_nil in Hin.
    + by intros rs r [=].
Qed.

(** X20. From the rules to the results: when the tasks [evaluateRules]
    returns are handed to [executeTasks], every [publish] call is made
    with the content that was evaluated, which passed validation, on an
    adapter of the registry named by a destination of a rule the content
    matches; and every result carries the name of such a rule and what the
    [publish] call on its adapter returned. *)
Theorem pipeline_origin {World : Type} (heap : aref -> Adapter World)
    (fire_order : list Task -> list nat) (now : Z) (item : Content)
    (rules : list Rule) (adapters : gmap string aref) (tasks : list Task)
    (opts : Opts) (w : World) :
  (evaluateRules now item rules adapters).2 = Return tasks ->
  let '(p, _, tr) := executeTasks heap fire_order tasks opts w in
  valid (validate item) = true
  /\ (forall a c, (a, c) ∈ publish_calls tr ->
        c = item
        /\ exists rule target,
             rule ∈ rules
             /\ matchesConditions item (rule_if rule) = true
             /\ target ∈ rule_publish rule
             /\ adapters !! target_adapter target = Some a)
  /\ (forall rs r, p = Fulfilled rs -> r ∈ rs ->
        exists rule target a result,
          rule ∈ rules
          /\ matchesConditions item (rule_if rule) = true
          /\ target ∈ rule_publish rule
          /\ adapters !! target_adapter target = Some a
          /\ Publish a item (Return result) ∈ tr
          /\ result_id r = id result /\ result_url r = url result
          /\ result_ruleName r = rule_name rule
          /\ adapter_id (heap a) = Return (result_adapter r)).
Proof.
  intros Heval.
  destruct (executeTasks heap fire_order tasks opts w) as [[p w'] tr] eqn:Hrun.
  destruct (executeTasks_origin _ _ _ _ _ _ _ _ Hrun) as [Hcalls Hres].
  split; [|split].
  - unfold evaluateRules in Heval.
    by destruct (valid (validate item)).
  - intros a c Hin. destruct (Hcalls a c Hin) as (t & Ht & [= <- <-]).
    destruct (evaluateRules_task_origin _ _ _ _ _ _ Heval Ht)
      as (_ & rule & target & H1 & H2 & H3 & H4 & _ & H6 & _).
    split; [done|]. by exists rule, target.
  - intros rs r Hp Hr.
    destruct (Hres rs r Hp Hr) as (t & Ht & result & i & Hin & Hid & ->).
    destruct (evaluateRules_task_origin _ _ _ _ _ _ Heval Ht)
      as (_ & rule & target & H1 & H2 & H3 & H4 & _ & H6 & H7).
    exists rule, target, (adapter t), result. rewrite H6 in Hin.
    repeat split; simpl; done.
Qed.

Lemma pipeline_origin_witness :
  let '(p, _, tr) :=
    executeTasks demo_heap expiry_order [demo_task 1 0 "Public posts to Dummy"]
      {| opt_verify := true |} demo_world in
  valid (validate hello) = true
  /\ (forall a c, (a, c) ∈ publish_calls tr ->
        c = hello
        /\ exists rule target,
             rule ∈ demo_rules
             /\ matchesConditions hello (rule_if rule) = true
             /\ target ∈ rule_publish rule
             /\ demo_registry !! target_adapter target = Some a)
  /\ (forall rs r, p = Fulfilled rs -> r ∈ rs ->
        exists rule target a result,
          rule ∈ demo_rules
          /\ matchesConditions hello (rule_if rule) = true
          /\ target ∈ rule_publish rule
          /\ demo_registry !! target_adapter target = Some a
          /\ Publish a hello (Return result) ∈ tr
          /\ result_id r = id result /\ result_url r = url result
          /\ result_ruleName r = rule_name rule
          /\ adapter_id (demo_heap a) = Return (result_adapter r)).
Proof.
  apply (pipeline_origin demo_heap expiry_order 0 hello demo_rules
           demo_registry [demo_task 1 0 "Public posts to Dummy"]
           {| opt_verify := true |} demo_world).
  by vm_compute.
Defined.
